(** * motion-chart: the year interpolator and the resumable sweep

    A shallow embedding of [src/motion.js] (the second copy in the
    repository differs only in white space, in logging and in one
    [window.t = t] assignment that nothing reads).

    Numbers.  JavaScript numbers are IEEE 754 doubles.  What the page
    does (what is scheduled, what runs, which listener fires, what is
    written where) is modelled over exact rationals extended with the two
    infinities and NaN ([JS.num]): there every finite operation is exact
    and a zero divisor is taken to be [+0].  The functions whose computed
    number is itself what a statement is about (the interpolator,
    [calRatio], the duration of a sweep) are modelled a second time over
    doubles, in [Double], and what is said of such a number is proved
    there.

    Library code.  The script runs on top of D3 (version 4) and jQuery UI.
    The parts of those libraries that the script's behaviour depends on
    (the bisector, [d3.interpolateNumber], the clamped linear scale, the
    life cycle of a named transition, the slider's [value] setter) are
    written out below next to the code that calls them, each marked as
    library behaviour. *)

From Stdlib Require Import String QArith Qround Qminmax ZArith List Bool Lia Lqa PeanoNat.
From Stdlib Require Floats.
From Equations Require Import Equations.
Import ListNotations.

Open Scope nat_scope.

(** A decimal literal of a double stands for the nearest double, as it
    does in the script. *)
Set Warnings "-inexact-float".

(** ** JavaScript values *)

Module JS.

(** A number: a finite rational, [Infinity] / [-Infinity], or [NaN]. *)
Inductive num : Type :=
| Fin (q : Q)
| Inf (negative : bool)
| NaN.

(** [null], [undefined] or a number: the only values the script stores
    in [window.pVals] or passes to a tween. *)
Inductive value : Type :=
| VNull
| VUndef
| VNum (n : num).

Definition Qltb (a b : Q) : bool := negb (Qle_bool b a).
Definition Qnegative (a : Q) : bool := Qltb a 0%Q.

Definition neg (a : num) : num :=
  match a with
  | Fin x => Fin (- x)%Q
  | Inf s => Inf (negb s)
  | NaN => NaN
  end.

Definition add (a b : num) : num :=
  match a, b with
  | Fin x, Fin y => Fin (x + y)%Q
  | Fin _, Inf s => Inf s
  | Inf s, Fin _ => Inf s
  | Inf s, Inf s' => if Bool.eqb s s' then Inf s else NaN
  | _, _ => NaN
  end.

Definition sub (a b : num) : num := add a (neg b).

Definition mul (a b : num) : num :=
  match a, b with
  | Fin x, Fin y => Fin (x * y)%Q
  | Fin x, Inf s => if Qeq_bool x 0%Q then NaN else Inf (xorb (Qnegative x) s)
  | Inf s, Fin y => if Qeq_bool y 0%Q then NaN else Inf (xorb s (Qnegative y))
  | Inf s, Inf s' => Inf (xorb s s')
  | _, _ => NaN
  end.

Definition div (a b : num) : num :=
  match a, b with
  | Fin x, Fin y =>
      if Qeq_bool y 0%Q
      then (if Qeq_bool x 0%Q then NaN else Inf (Qnegative x))
      else Fin (x / y)%Q
  | Fin _, Inf _ => Fin 0%Q
  | Inf s, Fin y => Inf (xorb s (Qnegative y))
  | _, _ => NaN
  end.

(** The relational operator [a < b]; false as soon as one side is NaN. *)
Definition lt (a b : num) : bool :=
  match a, b with
  | Fin x, Fin y => Qltb x y
  | Fin _, Inf s => negb s
  | Inf s, Fin _ => s
  | Inf s, Inf s' => s && negb s'
  | _, _ => false
  end.

(** [a <= b]. *)
Definition le (a b : num) : bool :=
  match a, b with
  | Fin x, Fin y => Qle_bool x y
  | Fin _, Inf s => negb s
  | Inf s, Fin _ => s
  | Inf s, Inf s' => s || negb s'
  | _, _ => false
  end.

(** [Math.round]: the nearest integer, ties towards [+Infinity]. *)
Definition Qround (x : Q) : Z := Qfloor (x + (1 # 2))%Q.

Definition round (a : num) : num :=
  match a with
  | Fin x => Fin (inject_Z (Qround x))
  | _ => a
  end.

(** [ToNumber]. *)
Definition to_num (v : value) : num :=
  match v with
  | VNull => Fin 0%Q
  | VUndef => NaN
  | VNum n => n
  end.

(** [ToBoolean]: [null], [undefined], [0] and [NaN] are falsy. *)
Definition truthy (v : value) : bool :=
  match v with
  | VNum (Fin x) => negb (Qeq_bool x 0%Q)
  | VNum (Inf _) => true
  | _ => false
  end.

(** [v || d]. *)
Definition or_else (v d : value) : value := if truthy v then v else d.

End JS.

Import JS.

Declare Scope js_scope.
Delimit Scope js_scope with js.
Bind Scope js_scope with num.
Notation "a + b" := (add a b) : js_scope.
Notation "a - b" := (sub a b) : js_scope.
Notation "a * b" := (mul a b) : js_scope.
Notation "a / b" := (div a b) : js_scope.

(** A thrown [TypeError] is [None]; [x <- e ;; k] sequences statements
    that may throw. *)
Notation "x <- e ;; k" :=
  (match e with Some x => k | None => None end)
    (at level 61, e at next level, right associativity).

(** ** The interpolator (motion.js, lines 98-135) *)

(** One sample of a series, the array [[year, value]]. *)
Definition sample : Type := (Q * Q)%type.
Definition series : Type := list sample.

Definition year_of (d : sample) : Q := fst d.
Definition value_of (d : sample) : Q := snd d.

(** Library behaviour (d3-array): [d3.bisector(d => d[0])] compares an
    element with the searched value by [ascending(d[0], x)], and [left]
    tests [compare(a[mid], x) < 0], which is [d[0] < x]. *)
Definition bisect_before (d : sample) (x : num) : bool :=
  lt (Fin (year_of d)) x.

(** Library behaviour (d3-array): the loop of [bisector.left],
<<
    while (lo < hi) {
      var mid = lo + hi >>> 1;
      if (compare(a[mid], x) < 0) lo = mid + 1; else hi = mid;
    }
    return lo;
>>
    Reading the year of [a[mid]] when [mid] is not an index of [a]
    throws. *)
Equations? bisect_left (a : series) (x : num) (lo hi : nat) : option nat
  by wf (hi - lo) Nat.lt :=
  bisect_left a x lo hi with le_lt_dec hi lo => {
    | left _ => Some lo
    | right _ with nth_error a ((lo + hi) / 2) => {
        | None => None
        | Some d with bisect_before d x => {
            | true => bisect_left a x ((lo + hi) / 2 + 1) hi
            | false => bisect_left a x lo ((lo + hi) / 2) } } }.
Proof.
  all: unfold Nat.lt;
    change (fst (Nat.divmod (lo + hi) 1 0 1)) with ((lo + hi) / 2);
    assert ((lo + hi) / 2 < hi) by (apply Nat.Div0.div_lt_upper_bound; lia);
    assert (lo <= (lo + hi) / 2) by (apply Nat.div_le_lower_bound; lia);
    lia.
Qed.

(** [interpolateValues(values, year)].  The upper bound handed to the
    bisector is [values.length - 1]; for an empty array that is [-1] in the
    source and [0] here, and in both cases the loop body never runs and
    index [0] is returned. *)
Definition interpolateValues (values : series) (year : num) : option num :=
  i <- bisect_left values year 0 (length values - 1) ;;
  a <- nth_error values i ;;
  if 0 <? i then
    b <- nth_error values (i - 1) ;;
    let t := ((year - Fin (year_of a)) / (Fin (year_of b) - Fin (year_of a)))%js in
    Some (Fin (value_of a) * (Fin 1%Q - t) + Fin (value_of b) * t)%js
  else
    Some (Fin (value_of a)).

(** A nation of [nations.json] and a record of the frame that
    [interpolateData] builds from it. *)
Record nation : Type := {
  nation_name : string;
  nation_region : string;
  income_series : series;
  population_series : series;
  lifeExpectancy_series : series
}.

Record datum : Type := {
  name : string;
  region : string;
  income : num;
  population : num;
  lifeExpectancy : num
}.

(** [interpolateData(year)]: [nations.map(d => ({...}))], the three
    interpolations of a nation in the order of the object literal. *)
Fixpoint interpolateData (nations : list nation) (year : num)
  : option (list datum) :=
  match nations with
  | [] => Some []
  | d :: rest =>
      inc <- interpolateValues (income_series d) year ;;
      pop <- interpolateValues (population_series d) year ;;
      life <- interpolateValues (lifeExpectancy_series d) year ;;
      frame <- interpolateData rest year ;;
      Some ({| name := nation_name d; region := nation_region d;
               income := inc; population := pop; lifeExpectancy := life |}
              :: frame)
  end.

(** ** Playback state and display (motion.js, lines 165-311) *)

(** [window.pVals]. *)
Record PVals : Type := {
  lastTween : value;
  currTween : value;
  currYear : value
}.

(** What the script shows: the frame last handed to the data join of the
    dots, the text of the year label and whether it carries the class
    [active], the slider's value and the text of its handle. *)
Record Display : Type := {
  dots : list datum;
  label : num;
  label_active : bool;
  slider_value : num;
  handle_text : num
}.

(** Library behaviour (d3-interpolate): [d3.interpolateNumber(a, b)] is
    [a = +a, b -= a, t => a + b * t]. *)
Record interpolator : Type := { from_a : num; delta_b : num }.

Definition interpolateNumber (a b : value) : interpolator :=
  {| from_a := to_num a; delta_b := (to_num b - to_num a)%js |}.

Definition interpolate_at (i : interpolator) (t : num) : num :=
  (from_a i + delta_b i * t)%js.

(** Library behaviour (d3-transition): a transition named ['yeah'] that
    the script has created on the [svg] group and that has not ended.  It
    is [SCHEDULED] from its creation until its timer starts it and
    [RUNNING] from then on; [tween] is the function returned by the tween
    factory, which D3 calls when the transition starts. *)
Inductive tstate : Type := SCHEDULED | RUNNING.

Record transition : Type := {
  tid : nat;
  tduration : num;
  tstatus : tstate;
  tween : option interpolator
}.

Definition is_running (o : transition) : bool :=
  match tstatus o with RUNNING => true | SCHEDULED => false end.

Definition is_scheduled (o : transition) : bool :=
  match tstatus o with SCHEDULED => true | RUNNING => false end.

Record State : Type := {
  pVals : PVals;
  schedules : list transition;
  next_id : nat;
  display : Display;
  armed : bool
}.

Definition with_pVals (p : PVals) (s : State) : State :=
  {| pVals := p; schedules := schedules s; next_id := next_id s;
     display := display s; armed := armed s |}.

Definition with_schedules (l : list transition) (s : State) : State :=
  {| pVals := pVals s; schedules := l; next_id := next_id s;
     display := display s; armed := armed s |}.

Definition with_display (d : Display) (s : State) : State :=
  {| pVals := pVals s; schedules := schedules s; next_id := next_id s;
     display := d; armed := armed s |}.

(** A handler either returns or lets a [TypeError] escape; in both cases
    the state is what the handler had written by then. *)
Inductive outcome : Type :=
| Returned (s : State)
| Threw (s : State).

Definition state_of (o : outcome) : State :=
  match o with Returned s => s | Threw s => s end.

(** [calRatio()] of [window.pVals]. *)
Definition calRatio (p : PVals) : PVals :=
  let allWidth := (Fin 2009%Q - Fin 1800%Q)%js in
  let diff := (to_num (currYear p) - Fin 1800%Q)%js in
  {| lastTween := VNum (diff / allWidth);
     currTween := currTween p;
     currYear := currYear p |}.

Definition duration : Q := 209000%Q.

(** The function given to [.duration(...)]. *)
Definition remaining_duration (p : PVals) : num :=
  (Fin duration - Fin duration * to_num (lastTween p))%js.

(** The [interrupt] listener: [window.pVals.lastTween =
    window.pVals.currTween]. *)
Definition on_interrupt (p : PVals) : PVals :=
  {| lastTween := currTween p; currTween := currTween p;
     currYear := currYear p |}.

(** Library behaviour (jQuery UI): the slider is created with [min: 1800],
    [max: 2009] and the default step 1; [slider('value', v)] stores
    [_trimAlignValue(v)], which clamps [v] to the two bounds and leaves an
    integer between them, and NaN, as they are.  The script only ever
    passes a value that went through [Math.round]. *)
Definition trimAlignValue (v : num) : num :=
  if le v (Fin 1800%Q) then Fin 1800%Q
  else if le (Fin 2009%Q) v then Fin 2009%Q
  else v.

(** Library behaviour (d3-transition): the argument that a tick at
    [elapsed] milliseconds hands to the tweens of a transition of duration
    [d] with the linear easing,
    [elapsed < self.duration ? self.ease.call(null, elapsed / self.duration) : 1]. *)
Definition tick_time (elapsed : Q) (d : num) : num :=
  if lt (Fin elapsed) d then (Fin elapsed / d)%js else Fin 1%Q.

(** What the function returned by [tweenYear] writes into [window.pVals]
    when called with [t]: [t += lastTween], then [currTween] and
    [currYear]. *)
Definition tween_pVals (year : interpolator) (t : value) (p : PVals) : PVals :=
  let t' := (to_num t + to_num (lastTween p))%js in
  {| lastTween := lastTween p;
     currTween := VNum t';
     currYear := VNum (round (interpolate_at year t')) |}.

Section Chart.

(** The array loaded from [nations.json] and the bounding box of the
    year label ([box.x], [box.width]). *)
Variable nations : list nation.
Variables box_x box_width : Q.

(** [displayYear(year)].  The data join comes first, so when
    [interpolateData] throws nothing has been shown.  Setting the
    slider's value makes jQuery UI call the [change] listener, which
    writes the value into the handle. *)
Definition displayYear (year : num) (s : State) : outcome :=
  match interpolateData nations year with
  | None => Threw s
  | Some frame =>
      let v := trimAlignValue (round year) in
      Returned (with_display
                  {| dots := frame;
                     label := round year;
                     label_active := label_active (display s);
                     slider_value := v;
                     handle_text := v |} s)
  end.

(** [tweenYear()]: the interpolator it builds ... *)
Definition tweenYear (p : PVals) : interpolator :=
  interpolateNumber (or_else (currYear p) (VNum (Fin 1800%Q)))
                    (VNum (Fin 2009%Q)).

(** ... and the function it returns, called with [t]. *)
Definition tween_call (year : interpolator) (t : value) (s : State)
  : outcome :=
  let t' := (to_num t + to_num (lastTween (pVals s)))%js in
  displayYear (interpolate_at year t')
              (with_pVals (tween_pVals year t (pVals s)) s).

(** [startPlaying()], that is [transition()]: D3 evaluates the duration
    function when the transition is created; the tween factory and the
    three listeners are only registered. *)
Definition startPlaying (s : State) : State :=
  {| pVals := pVals s;
     schedules := schedules s ++
                  [{| tid := next_id s;
                      tduration := remaining_duration (pVals s);
                      tstatus := SCHEDULED;
                      tween := None |}];
     next_id := S (next_id s);
     display := display s;
     armed := armed s |}.

(** Library behaviour (d3-transition): the [interrupt] event reaches the
    listener of every transition that is running. *)
Definition dispatch_interrupts (l : list transition) (p : PVals) : PVals :=
  fold_left (fun p o => if is_running o then on_interrupt p else p) l p.

(** [stopPlaying()]: [svg.interrupt('yeah')] ends every transition of
    that name on the node, dispatching [interrupt] to the running
    ones. *)
Definition stopPlaying (s : State) : State :=
  with_schedules [] (with_pVals (dispatch_interrupts (schedules s) (pVals s)) s).

(** [enableInteraction()]: registers the pointer listeners on the
    overlay.  The transition it creates with [svg.transition()] has no
    name, so it leaves the ones named ['yeah'] alone, and it carries no
    tween and no listener; it is not represented. *)
Definition enableInteraction (s : State) : State :=
  {| pVals := pVals s; schedules := schedules s; next_id := next_id s;
     display := display s; armed := true |}.

Definition find_transition (id : nat) (s : State) : option transition :=
  find (fun o => tid o =? id) (schedules s).

Definition remove_transition (id : nat) (s : State) : State :=
  with_schedules (filter (fun o => negb (tid o =? id)) (schedules s)) s.

(** Library behaviour (d3-transition): one call of [tick(elapsed)] of a
    running transition,
<<
    var t = elapsed < self.duration
          ? self.ease.call(null, elapsed / self.duration)
          : (self.timer.restart(stop), self.state = ENDING, 1);
    ... tween[i].call(null, t) ...
    if (self.state === ENDING) { self.on.call("end", ...); stop(); }
>>
    with the linear easing.  The [end] listener is
    [enableInteraction]; when the tween throws, [end] is not
    dispatched, and the transition is still removed by the [stop] that
    the timer was restarted with. *)
Definition timer_tick (id : nat) (elapsed : Q) (s : State) : State :=
  match find_transition id s with
  | Some {| tduration := d; tstatus := RUNNING; tween := Some year |} =>
      let ending := negb (lt (Fin elapsed) d) in
      match tween_call year (VNum (tick_time elapsed d)) s with
      | Returned s' =>
          if ending then remove_transition id (enableInteraction s')
          else s'
      | Threw s' =>
          if ending then remove_transition id s' else s'
      end
  | _ => s
  end.

(** Library behaviour (d3-transition): when the timer of the transition
    [self] starts it, every running transition of the same name is
    interrupted and every other one with a smaller id is cancelled. *)
Definition preempt (self : nat) (s : State) : State :=
  with_schedules
    (filter (fun o => negb (is_running o) && negb (tid o <? self))
            (schedules s))
    (with_pVals (dispatch_interrupts (schedules s) (pVals s)) s).

Definition set_running (self : nat) (year : interpolator) (s : State)
  : State :=
  with_schedules
    (map (fun o => if tid o =? self
                   then {| tid := tid o; tduration := tduration o;
                           tstatus := RUNNING; tween := Some year |}
                   else o)
         (schedules s)) s.

(** Library behaviour (d3-transition): [start(elapsed)] of a scheduled
    transition.  After the pre-emption the [start] event is dispatched,
    whose listener here is [tweenYear(d)()], a call of the tween
    function without argument; then the tween factory [tweenYear] is
    called, and the first tick runs before the frame ends.  A transition
    whose [start] listener throws is dropped the next time its timer
    fires. *)
Definition timer_start (self : nat) (elapsed : Q) (s : State) : State :=
  let s1 := preempt self s in
  match tween_call (tweenYear (pVals s1)) VUndef s1 with
  | Threw s2 => remove_transition self s2
  | Returned s2 =>
      timer_tick self elapsed (set_running self (tweenYear (pVals s2)) s2)
  end.

(** Library behaviour (d3-scale): [yearScale.invert] of the clamped
    linear scale with domain [[1800, 2009]] and range
    [[box.x + 10, box.x + box.width - 10]]. *)
Definition yearScale_invert (y : Q) : Q :=
  let r0 := (box_x + 10)%Q in
  let r1 := (box_x + box_width - 10)%Q in
  let flip := Qltb r1 r0 in
  let a := if flip then r1 else r0 in
  let b := if flip then r0 else r1 in
  let A := if flip then 2009%Q else 1800%Q in
  let B := if flip then 1800%Q else 2009%Q in
  let t := if Qeq_bool (b - a) 0 then 0%Q else ((y - a) / (b - a))%Q in
  if Qle_bool t 0 then A
  else if Qle_bool 1 t then B
  else (A + (B - A) * t)%Q.

(** The [mousemove] / [touchmove] listener of the overlay; [x] is
    [d3.mouse(this)[0]]. *)
Definition mousemove (x : Q) (s : State) : State :=
  state_of (displayYear (Fin (yearScale_invert x)) s).

(** The [slide] listener of the slider; [v] is [ui.value].  (When the
    listener has returned, jQuery UI stores [v] as the slider's value and
    calls the [change] listener; for an integer of the range, which is
    what the slider produces, [displayYear] has written the same value
    and the same handle text already.) *)
Definition slide (v : Q) (s : State) : State :=
  let d := display s in
  let s1 := with_display
              {| dots := dots d; label := label d;
                 label_active := label_active d;
                 slider_value := slider_value d;
                 handle_text := Fin v |} s in
  let p := {| lastTween := lastTween (pVals s1);
              currTween := currTween (pVals s1);
              currYear := VNum (Fin v) |} in
  let s2 := with_pVals (calRatio p) s1 in
  state_of (displayYear (Fin v) s2).

Definition set_label_active (b : bool) (s : State) : State :=
  let d := display s in
  with_display {| dots := dots d; label := label d; label_active := b;
                  slider_value := slider_value d;
                  handle_text := handle_text d |} s.

(** ** Events *)

(** What can happen to the page: a click on one of the two buttons, a
    D3 timer starting a scheduled transition or ticking a running one
    ([elapsed] in milliseconds), pointer events on the overlay, and the
    user dragging the slider to an integer of its range.  Timers are
    free to fire in any order and with any elapsed time that is not
    negative, which is more than a browser does. *)
Inductive event : Type :=
| ClickPlay
| ClickStop
| TimerStart (id : nat) (elapsed : Q)
| TimerTick (id : nat) (elapsed : Q)
| MouseOver
| MouseOut
| MouseMove (x : Q)
| Slide (v : Z).

Definition has_status (id : nat) (st : transition -> bool) (s : State)
  : bool :=
  match find_transition id s with
  | Some o => st o
  | None => false
  end.

Definition enabled (s : State) (e : event) : bool :=
  match e with
  | TimerStart id elapsed => has_status id is_scheduled s && Qle_bool 0 elapsed
  | TimerTick id elapsed => has_status id is_running s && Qle_bool 0 elapsed
  | Slide v => (1800 <=? v)%Z && (v <=? 2009)%Z
  | _ => true
  end.

(** The overlay starts with [enableInteraction] as its [mouseover]
    listener and no other; [enableInteraction] replaces it and adds the
    rest. *)
Definition handle (e : event) (s : State) : State :=
  match e with
  | ClickPlay => startPlaying s
  | ClickStop => stopPlaying s
  | TimerStart id elapsed => timer_start id elapsed s
  | TimerTick id elapsed => timer_tick id elapsed s
  | MouseOver =>
      if armed s then set_label_active true s else enableInteraction s
  | MouseOut => if armed s then set_label_active false s else s
  | MouseMove x => if armed s then mousemove x s else s
  | Slide v => slide (inject_Z v) s
  end.

Definition exec (s : State) (e : event) : State :=
  if enabled s e then handle e s else s.

Definition run (s : State) (es : list event) : State := fold_left exec es s.

(** The state once [nations.json] is loaded and the callback has run:
    the dots show [interpolateData(1800)], the label reads 1800, the
    slider sits at its minimum. *)
Definition init : option State :=
  frame <- interpolateData nations (Fin 1800%Q) ;;
  Some {| pVals := {| lastTween := VNum (Fin 0%Q);
                      currTween := VNull;
                      currYear := VNull |};
          schedules := [];
          next_id := 1;
          display := {| dots := frame;
                        label := Fin 1800%Q;
                        label_active := false;
                        slider_value := trimAlignValue (Fin 0%Q);
                        handle_text := trimAlignValue (Fin 0%Q) |};
          armed := false |}.

Definition reachable (s : State) : Prop :=
  exists s0 es, init = Some s0 /\ s = run s0 es.

(** The state after a list of events, from the loaded page. *)
Definition run_from_init (es : list event) : option State :=
  s0 <- init ;; Some (run s0 es).

(** A sweep is active when a transition is running. *)
Definition running_count (s : State) : nat :=
  List.length (filter is_running (schedules s)).

Definition playing (s : State) : bool :=
  existsb is_running (schedules s).

End Chart.

(** ** Sortedness of a series *)

(** Years strictly ascending, checked on neighbours. *)
Fixpoint strictly_ascending (values : series) : bool :=
  match values with
  | a :: (b :: _) as rest =>
      Qltb (year_of a) (year_of b) && strictly_ascending rest
  | _ => true
  end.

(** Years ascending, equal neighbours allowed. *)
Fixpoint ascending (values : series) : bool :=
  match values with
  | a :: (b :: _) as rest =>
      Qle_bool (year_of a) (year_of b) && ascending rest
  | _ => true
  end.

(** ** Invariants of the sweep *)

(** The interpolator of a sweep that runs from 1800 to 2009. *)
Definition sweep_tween : interpolator :=
  interpolateNumber (VNum (Fin 1800%Q)) (VNum (Fin 2009%Q)).

Definition finite (v : value) : Prop := exists q : Q, v = VNum (Fin q).

(** What holds of the transitions in every state the page can be in:
    their ids are distinct and below the next one, their durations are
    finite, a running one tweens from 1800, and the fraction committed in
    [lastTween] is finite. *)
Record transitions_ok (s : State) : Prop := {
  ok_fresh : Forall (fun o => tid o < next_id s) (schedules s);
  ok_nodup : NoDup (map tid (schedules s));
  ok_tween : Forall (fun o => is_running o = true ->
                              tween o = Some sweep_tween) (schedules s);
  ok_duration : Forall (fun o => exists d : Q, tduration o = Fin d)
                       (schedules s);
  ok_last : finite (lastTween (pVals s))
}.

(** Moreover, while a sweep is running, [currTween] is finite. *)
Definition invariant (s : State) : Prop :=
  transitions_ok s /\
  (existsb is_running (schedules s) = true -> finite (currTween (pVals s))).

(** The year that a progress fraction stands for over the fixed bounds,
    rounded: [Math.round(1800 + f * (2009 - 1800))]. *)
Definition year_of_fraction (f : value) : num :=
  round (Fin 1800%Q + to_num f * (Fin 2009%Q - Fin 1800%Q))%js.

(** [currYear] agrees with the committed fraction [lastTween] ... *)
Definition consistent (p : PVals) : Prop :=
  currYear p = VNum (year_of_fraction (lastTween p)).

(** ... or with the fraction [currTween] of the tick in progress. *)
Definition consistent_curr (p : PVals) : Prop :=
  currYear p = VNum (year_of_fraction (currTween p)).

(** Every series of every nation has a sample. *)
Definition nonempty (values : series) : bool :=
  match values with [] => false | _ :: _ => true end.

Definition has_data (nations : list nation) : bool :=
  forallb (fun d => nonempty (income_series d)
                    && nonempty (population_series d)
                    && nonempty (lifeExpectancy_series d)) nations.

(** ** Examples *)

Definition scenario_series : series :=
  [(1800, 100); (1850, 200); (1900, 300)]%Q.

(** A data set of one nation, and a label box, to run the page on. *)
Definition demo_nations : list nation :=
  [ {| nation_name := "Aland";
       nation_region := "Europe";
       income_series := scenario_series;
       population_series := [(1800, 5000)]%Q;
       lifeExpectancy_series := [(1800, 30); (2009, 80)]%Q |} ].

Definition demo_run (es : list event) : option State :=
  run_from_init demo_nations 800 140 es.

Definition demo_init : State :=
  {| pVals := {| lastTween := VNum (Fin 0%Q);
                 currTween := VNull;
                 currYear := VNull |};
     schedules := [];
     next_id := 1;
     display := {| dots := [{| name := "Aland"; region := "Europe";
                               income := Fin 100%Q;
                               population := Fin 5000%Q;
                               lifeExpectancy := Fin 30%Q |}];
                   label := Fin 1800%Q;
                   label_active := false;
                   slider_value := Fin 1800%Q;
                   handle_text := Fin 1800%Q |};
     armed := false |}.

(** A first sweep, 104.5 s after it started: half way. *)
Definition half_way : list event :=
  [ClickPlay; TimerStart 1 16; TimerTick 1 104500].

(** The same, stopped there, started again and 83.6 s into the second
    sweep. *)
Definition past_the_end : list event :=
  half_way ++ [ClickStop; ClickPlay; TimerStart 2 16; TimerTick 2 83600].

(** ** The rest of the script *)

(** The accessors (motion.js, lines 2-16). *)
Definition x (d : datum) : num := income d.
Definition y (d : datum) : num := lifeExpectancy d.
Definition radius (d : datum) : num := population d.
Definition color (d : datum) : string := region d.
Definition key (d : datum) : string := name d.

(** [order(a, b)]: [radius(b) - radius(a)]. *)
Definition order (a b : datum) : num := (radius b - radius a)%js.

(** ** The arithmetic in doubles *)

(** The functions of the script whose result is a computed number, once
    more over JavaScript's own numbers: IEEE 754 binary64, which Rocq's
    primitive [float] implements.  Every operation rounds to the nearest
    double, a result too large becomes an infinity, and a comparison with
    NaN is false.  Each definition is its namesake above with [float] in
    the place of [num]. *)
Module Double.
Import SpecFloat PrimFloat FloatOps.

(** One sample of a series, the array [[year, value]]. *)
Definition sample : Type := (float * float)%type.
Definition series : Type := list sample.

Definition year_of (d : sample) : float := fst d.
Definition value_of (d : sample) : float := snd d.

(** Library behaviour (d3-array): the test [d[0] < x] of the bisector. *)
Definition bisect_before (d : sample) (x : float) : bool :=
  (year_of d <? x)%float.

(** Library behaviour (d3-array): the loop of [bisector.left]. *)
Equations? bisect_left (a : series) (x : float) (lo hi : nat) : option nat
  by wf (hi - lo) Nat.lt :=
  bisect_left a x lo hi with le_lt_dec hi lo => {
    | left _ => Some lo
    | right _ with nth_error a ((lo + hi) / 2) => {
        | None => None
        | Some d with bisect_before d x => {
            | true => bisect_left a x ((lo + hi) / 2 + 1) hi
            | false => bisect_left a x lo ((lo + hi) / 2) } } }.
Proof.
  all: unfold Nat.lt;
    change (fst (Nat.divmod (lo + hi) 1 0 1)) with ((lo + hi) / 2);
    assert ((lo + hi) / 2 < hi) by (apply Nat.Div0.div_lt_upper_bound; lia);
    assert (lo <= (lo + hi) / 2) by (apply Nat.div_le_lower_bound; lia);
    lia.
Qed.

(** [interpolateValues(values, year)] (motion.js, lines 115-124):
<<
    const i = bisect.left(values, year, 0, values.length - 1);
    const a = values[i];
    if (i > 0) {
      const b = values[i - 1];
      const t = (year - a[0]) / (b[0] - a[0]);
      return a[1] * (1 - t) + b[1] * t;
    }
    return a[1];
>>
    For an empty array the upper bound is [-1] in the source and [0]
    here; the loop body never runs either way, and reading [a[1]] of the
    missing [values[0]] throws. *)
Definition interpolateValues (values : series) (year : float) : option float :=
  i <- bisect_left values year 0 (length values - 1) ;;
  a <- nth_error values i ;;
  if (0 <? i)%nat then
    b <- nth_error values (i - 1) ;;
    let t := ((year - year_of a) / (year_of b - year_of a))%float in
    Some (value_of a * (1 - t) + value_of b * t)%float
  else
    Some (value_of a).

(** The two formulas of the description, evaluated as they are written:
    the interpolation between two neighbouring samples, with the fraction
    measured from the lower one, and the line through the last two samples
    continued past the last one. *)
Definition stated_interpolation (lower upper : sample) (year : float) : float :=
  let t := ((year - year_of lower) / (year_of upper - year_of lower))%float in
  (value_of lower * (1 - t) + value_of upper * t)%float.

Definition stated_extrapolation (secondLast last : sample) (year : float)
  : float :=
  (value_of last
   + (year - year_of last) * (value_of last - value_of secondLast)
     / (year_of last - year_of secondLast))%float.

(** Years strictly ascending, checked on neighbours. *)
Fixpoint strictly_ascending (values : series) : bool :=
  match values with
  | a :: (b :: _) as rest =>
      (year_of a <? year_of b)%float && strictly_ascending rest
  | _ => true
  end.

(** The values that [window.pVals] holds. *)
Inductive value : Type :=
| VNull
| VUndef
| VNum (n : float).

(** [ToNumber]: [null] is 0 and [undefined] is NaN. *)
Definition to_num (v : value) : float :=
  match v with
  | VNull => 0%float
  | VUndef => nan
  | VNum n => n
  end.

Record PVals : Type := {
  lastTween : value;
  currTween : value;
  currYear : value
}.

(** [calRatio()] of [window.pVals]. *)
Definition calRatio (p : PVals) : PVals :=
  let allWidth := (2009 - 1800)%float in
  let diff := (to_num (currYear p) - 1800)%float in
  {| lastTween := VNum (diff / allWidth);
     currTween := currTween p;
     currYear := currYear p |}.

Definition duration : float := 209000%float.

(** The function given to [.duration(...)]. *)
Definition remaining_duration (p : PVals) : float :=
  (duration - duration * to_num (lastTween p))%float.

(** The remaining duration as the description states it. *)
Definition stated_duration (p : float) : float :=
  (duration * (1 - p))%float.

(** A transition named ['yeah'], and the part of the page that
    [startPlaying] reads and writes. *)
Record transition : Type := {
  tid : nat;
  tduration : float;
  tstatus : tstate;
  tween : option (float * float)
}.

Record State : Type := {
  pVals : PVals;
  schedules : list transition;
  next_id : nat
}.

(** [startPlaying()], that is [transition()]: one more scheduled
    transition, whose duration is computed at once. *)
Definition startPlaying (s : State) : State :=
  {| pVals := pVals s;
     schedules := schedules s ++
                  [{| tid := next_id s;
                      tduration := remaining_duration (pVals s);
                      tstatus := SCHEDULED;
                      tween := None |}];
     next_id := S (next_id s) |}.

(** What the [slide] listener of the slider writes into [window.pVals]:
    [window.pVals.currYear = ui.value; window.pVals.calRatio()].  The
    handle text and the frame that it also sets are not part of this
    state. *)
Definition slide (v : float) (s : State) : State :=
  {| pVals := calRatio {| lastTween := lastTween (pVals s);
                          currTween := currTween (pVals s);
                          currYear := VNum v |};
     schedules := schedules s;
     next_id := next_id s |}.

(** The rational number that a finite double stands for. *)
Definition exact (f : float) : option Q :=
  match Prim2SF f with
  | S754_zero _ => Some 0%Q
  | S754_finite s m e =>
      Some ((if s then - inject_Z (Z.pos m) else inject_Z (Z.pos m))
            * Qpower 2 e)%Q
  | _ => None
  end.

(** The years of the slider: [1800 + n]. *)
Definition slider_year (n : nat) : float :=
  of_uint63 (Uint63.of_Z (1800 + Z.of_nat n)).

(** Example data. *)
Definition scenario_series : series :=
  [(1800, 100); (1850, 200); (1900, 300)]%float.

Definition tenths_series : series := [(0, 0); (10, 1)]%float.

Definition life_series : series := [(2000, 30.1); (2007, 35.7)]%float.

Definition steep_series : series := [(0, 0); (1, 0x1p1023)]%float.

Definition paused_at (p : float) : State :=
  {| pVals := {| lastTween := VNum p; currTween := VNum p;
                 currYear := VNull |};
     schedules := [];
     next_id := 1 |}.

End Double.

(** * Properties *)

Lemma Qltb_lt (a b : Q) : Qltb a b = true <-> (a < b)%Q.
Proof.
  unfold Qltb. rewrite negb_true_iff, <- not_true_iff_false, Qle_bool_iff.
  split; [apply Qnot_le_lt | apply Qlt_not_le].
Qed.

Lemma Qltb_ge (a b : Q) : Qltb a b = false <-> (b <= a)%Q.
Proof.
  unfold Qltb. rewrite negb_false_iff. apply Qle_bool_iff.
Qed.

Lemma Qeq_bool_false (a b : Q) : ~ (a == b)%Q -> Qeq_bool a b = false.
Proof.
  intros H. apply not_true_iff_false. rewrite Qeq_bool_iff. exact H.
Qed.

(** *** The bisector *)

(** On a range whose elements are before [x] up to [k] and not before it
    from [k] on, the loop stops at [k]. *)
Lemma bisect_left_partition (a : series) (x : num) (lo hi k : nat) :
  lo <= k <= hi ->
  hi <= List.length a ->
  (forall j d, lo <= j < k -> nth_error a j = Some d -> bisect_before d x = true) ->
  (forall j d, k <= j < hi -> nth_error a j = Some d -> bisect_before d x = false) ->
  bisect_left a x lo hi = Some k.
Proof.
  funelim (bisect_left a x lo hi); intros Hk Hlen Hlow Hhigh;
    try (assert (Hmid : (lo + hi) / 2 < hi)
          by (apply Nat.Div0.div_lt_upper_bound; lia);
         assert (Hmid' : lo <= (lo + hi) / 2)
          by (apply Nat.div_le_lower_bound; lia)).
  - f_equal. lia.
  - exfalso. apply nth_error_None in Heq. lia.
  - assert ((lo + hi) / 2 < k).
    { destruct (le_lt_dec k ((lo + hi) / 2)) as [Hle|Hlt]; [|lia].
      rewrite (Hhigh _ _ (conj Hle Hmid) Heq0) in Heq. discriminate. }
    apply H; try lia.
    + intros j d' Hj. apply Hlow. lia.
    + intros j d' Hj. apply Hhigh. lia.
  - assert (k <= (lo + hi) / 2).
    { destruct (le_lt_dec k ((lo + hi) / 2)) as [Hle|Hlt]; [lia|].
      rewrite (Hlow _ _ (conj Hmid' Hlt) Heq0) in Heq. discriminate. }
    apply H; try lia.
    + intros j d' Hj. apply Hlow. lia.
    + intros j d' Hj. apply Hhigh. lia.
Qed.

Example valueAt_1800 :
  interpolateValues scenario_series (Fin 1800%Q) = Some (Fin 100%Q).
Proof. reflexivity. Qed.

(** *** Sorted series, by index *)

Lemma strictly_ascending_tail (d : sample) (a : series) :
  strictly_ascending (d :: a) = true -> strictly_ascending a = true.
Proof.
  destruct a as [|b a]; simpl; [reflexivity|].
  intros H. apply andb_prop in H. apply H.
Qed.

Lemma strictly_ascending_head (a : series) :
  forall d, strictly_ascending (d :: a) = true ->
  forall j dj, nth_error a j = Some dj -> (year_of d < year_of dj)%Q.
Proof.
  induction a as [|b a IH]; intros d H j dj Hj.
  - destruct j; discriminate.
  - simpl in H. apply andb_prop in H. destruct H as [Hdb Hrest].
    apply Qltb_lt in Hdb. destruct j as [|j]; simpl in Hj.
    + injection Hj as <-. exact Hdb.
    + apply Qlt_trans with (year_of b); [exact Hdb|].
      exact (IH b Hrest j dj Hj).
Qed.

Lemma strictly_ascending_nth (a : series) :
  strictly_ascending a = true ->
  forall i j di dj, i < j ->
  nth_error a i = Some di -> nth_error a j = Some dj ->
  (year_of di < year_of dj)%Q.
Proof.
  induction a as [|d a IH]; intros H i j di dj Hij Hi Hj.
  - destruct i; discriminate.
  - destruct j as [|j]; [lia|]. simpl in Hj. destruct i as [|i]; simpl in Hi.
    + injection Hi as <-. exact (strictly_ascending_head a d H j dj Hj).
    + apply (IH (strictly_ascending_tail d a H) i j di dj); [lia|assumption..].
Qed.

Lemma ascending_tail (d : sample) (a : series) :
  ascending (d :: a) = true -> ascending a = true.
Proof.
  destruct a as [|b a]; simpl; [reflexivity|].
  intros H. apply andb_prop in H. apply H.
Qed.

Lemma ascending_head (a : series) :
  forall d, ascending (d :: a) = true ->
  forall j dj, nth_error a j = Some dj -> (year_of d <= year_of dj)%Q.
Proof.
  induction a as [|b a IH]; intros d H j dj Hj.
  - destruct j; discriminate.
  - simpl in H. apply andb_prop in H. destruct H as [Hdb Hrest].
    apply Qle_bool_iff in Hdb. destruct j as [|j]; simpl in Hj.
    + injection Hj as <-. exact Hdb.
    + apply Qle_trans with (year_of b); [exact Hdb|].
      exact (IH b Hrest j dj Hj).
Qed.

(** *** The interpolator *)

(** The two branches of [interpolateValues] once the index is known. *)
Lemma interpolateValues_first (values : series) (year : num) (a : sample) :
  bisect_left values year 0 (List.length values - 1) = Some 0 ->
  nth_error values 0 = Some a ->
  interpolateValues values year = Some (Fin (value_of a)).
Proof.
  intros Hi Ha. unfold interpolateValues. rewrite Hi, Ha. reflexivity.
Qed.

Lemma interpolateValues_inner (values : series) (year : Q) (i : nat)
      (a b : sample) :
  bisect_left values (Fin year) 0 (List.length values - 1) = Some (S i) ->
  nth_error values (S i) = Some a ->
  nth_error values i = Some b ->
  ~ (year_of b == year_of a)%Q ->
  interpolateValues values (Fin year) =
  Some (Fin (value_of a * (1 - (year - year_of a) / (year_of b - year_of a))
             + value_of b * ((year - year_of a) / (year_of b - year_of a)))%Q).
Proof.
  intros Hi Ha Hb Hne. unfold interpolateValues. rewrite Hi, Ha.
  change (0 <? S i) with true. cbv iota.
  replace (S i - 1) with i by lia. rewrite Hb.
  unfold div, sub, add, neg, mul.
  rewrite Qeq_bool_false; [reflexivity|].
  intros H. apply Hne. lra.
Qed.

(** The index found for a year that lies on, or between, samples of a
    strictly ascending series. *)
Lemma bisect_left_upper (values : series) (year : Q) (i : nat)
      (lower upper : sample) :
  strictly_ascending values = true ->
  nth_error values i = Some lower ->
  nth_error values (S i) = Some upper ->
  (year_of lower < year <= year_of upper)%Q ->
  bisect_left values (Fin year) 0 (List.length values - 1) = Some (S i).
Proof.
  intros Hs Hl Hu [Hlo Hup].
  assert (Hlen : S i < List.length values)
    by (apply nth_error_Some; rewrite Hu; discriminate).
  apply bisect_left_partition; try lia.
  - intros j d Hj Hd. apply Qltb_lt.
    destruct (Nat.eq_dec j i) as [->|Hne].
    + rewrite Hl in Hd. injection Hd as <-. exact Hlo.
    + apply Qlt_trans with (year_of lower); [|exact Hlo].
      apply (strictly_ascending_nth values Hs j i); [lia|assumption..].
  - intros j d Hj Hd. apply Qltb_ge.
    destruct (Nat.eq_dec j (S i)) as [->|Hne].
    + rewrite Hu in Hd. injection Hd as <-. exact Hup.
    + apply Qle_trans with (year_of upper); [exact Hup|].
      apply Qlt_le_weak.
      apply (strictly_ascending_nth values Hs (S i) j); [lia|assumption..].
Qed.



(** C7.  In a non-empty series with ascending years, a year that is not
    after the first sample's year gets the first sample's value, however
    far before it lies. *)
Theorem interpolateValues_before_first
        (values : series) (year : Q) (first : sample) :
  ascending values = true ->
  nth_error values 0 = Some first ->
  (year <= year_of first)%Q ->
  interpolateValues values (Fin year) = Some (Fin (value_of first)).
Proof.
  intros Hs Hf Hy.
  apply interpolateValues_first; [|exact Hf].
  destruct values as [|d rest]; [discriminate|].
  simpl in Hf. injection Hf as ->.
  apply bisect_left_partition; simpl; try lia.
  intros j e Hj He. apply Qltb_ge.
  destruct j as [|j]; simpl in He.
  - injection He as <-. exact Hy.
  - apply Qle_trans with (year_of first); [exact Hy|].
    exact (ascending_head rest first Hs j e He).
Qed.

Lemma interpolateValues_before_first_scenario :
  interpolateValues scenario_series (Fin 1700%Q) = Some (Fin 100%Q).
Proof.
  apply (interpolateValues_before_first scenario_series 1700%Q (1800, 100)%Q).
  - reflexivity.
  - reflexivity.
  - unfold year_of, Qle; simpl; lia.
Defined.

(** *** No exception on non-empty series *)

Lemma bisect_left_total (a : series) (x : num) (lo hi : nat) :
  lo <= hi -> hi <= List.length a ->
  exists i, bisect_left a x lo hi = Some i /\ lo <= i <= hi.
Proof.
  funelim (bisect_left a x lo hi); intros Hle Hlen;
    try (assert (Hmid : (lo + hi) / 2 < hi)
          by (apply Nat.Div0.div_lt_upper_bound; lia);
         assert (Hmid' : lo <= (lo + hi) / 2)
          by (apply Nat.div_le_lower_bound; lia)).
  - exists lo. split; [reflexivity|lia].
  - exfalso. apply nth_error_None in Heq. lia.
  - destruct H as [i [Hi Hb]]; try lia. exists i. split; [exact Hi|lia].
  - destruct H as [i [Hi Hb]]; try lia. exists i. split; [exact Hi|lia].
Qed.

Lemma interpolateValues_total (values : series) (year : num) :
  values <> [] -> exists r, interpolateValues values year = Some r.
Proof.
  intros Hne.
  assert (Hlen : 0 < List.length values)
    by (destruct values; [congruence|simpl; lia]).
  destruct (bisect_left_total values year 0 (List.length values - 1))
    as [i [Hi Hb]]; try lia.
  unfold interpolateValues. rewrite Hi.
  destruct (nth_error values i) as [a|] eqn:Ha;
    [|apply nth_error_None in Ha; lia].
  destruct (0 <? i); [|eauto].
  destruct (nth_error values (i - 1)) as [b|] eqn:Hb';
    [eauto|apply nth_error_None in Hb'; lia].
Qed.

Lemma interpolateValues_empty (year : num) : interpolateValues [] year = None.
Proof. reflexivity. Qed.

Lemma interpolateData_total (nations : list nation) (year : num) :
  has_data nations = true ->
  exists frame, interpolateData nations year = Some frame.
Proof.
  induction nations as [|d rest IH]; simpl; intros H; [eauto|].
  repeat (apply andb_prop in H; destruct H as [H ?]).
  destruct (interpolateValues_total (income_series d) year) as [inc ->];
    [destruct (income_series d); [discriminate|congruence]|].
  destruct (interpolateValues_total (population_series d) year) as [pop ->];
    [destruct (population_series d); [discriminate|congruence]|].
  destruct (interpolateValues_total (lifeExpectancy_series d) year) as [life ->];
    [destruct (lifeExpectancy_series d); [discriminate|congruence]|].
  destruct IH as [frame ->]; [assumption|]. eauto.
Qed.

Lemma interpolateData_has_data (nations : list nation) (year : num) frame :
  interpolateData nations year = Some frame -> has_data nations = true.
Proof.
  revert frame. induction nations as [|d rest IH]; simpl; intros frame H;
    [reflexivity|].
  destruct (income_series d) as [|? ?];
    [rewrite interpolateValues_empty in H; discriminate|].
  destruct (interpolateValues (_ :: _) year); [|discriminate].
  destruct (population_series d) as [|? ?];
    [rewrite interpolateValues_empty in H; discriminate|].
  destruct (interpolateValues (_ :: _) year); [|discriminate].
  destruct (lifeExpectancy_series d) as [|? ?];
    [rewrite interpolateValues_empty in H; discriminate|].
  destruct (interpolateValues (_ :: _) year); [|discriminate].
  destruct (interpolateData rest year) as [fr|] eqn:Hr; [|discriminate].
  simpl. exact (IH fr eq_refl).
Qed.

(** *** The interpolator and the duration in doubles *)

Section Doubles.
Import SpecFloat FloatAxioms PrimFloat.

(** **** The order of doubles *)

Ltac order_cases :=
  repeat match goal with
  | |- context [Z.compare ?a ?b] => destruct (Z.compare_spec a b)
  | |- context [Pos.compare_cont Eq ?a ?b] =>
      change (Pos.compare_cont Eq a b) with (Pos.compare a b);
      destruct (Pos.compare_spec a b)
  end; simpl; try reflexivity; try discriminate; try lia.

Lemma SFltb_trans (a b c : spec_float) :
  SFltb a b = true -> SFltb b c = true -> SFltb a c = true.
Proof.
  unfold SFltb, SFcompare.
  destruct a as [[|]|[|]| |[|] ma ea], b as [[|]|[|]| |[|] mb eb],
           c as [[|]|[|]| |[|] mc ec];
    simpl; try reflexivity; try discriminate; order_cases.
Qed.

Lemma SFltb_asym (a b : spec_float) :
  SFltb a b = true -> SFltb b a = false.
Proof.
  unfold SFltb, SFcompare.
  destruct a as [[|]|[|]| |[|] ma ea], b as [[|]|[|]| |[|] mb eb];
    simpl; try reflexivity; try discriminate; order_cases.
Qed.

Lemma ltb_trans (a b c : float) :
  (a <? b)%float = true -> (b <? c)%float = true -> (a <? c)%float = true.
Proof. rewrite !ltb_spec. apply SFltb_trans. Qed.

Lemma ltb_asym (a b : float) :
  (a <? b)%float = true -> (b <? a)%float = false.
Proof. rewrite !ltb_spec. apply SFltb_asym. Qed.

(** Nothing is below a double that is below it, or equal to it. *)
Lemma ltb_not_below (a b c : float) :
  (a <? b)%float = true -> (b <? c)%float = true \/ b = c ->
  (c <? a)%float = false.
Proof.
  intros Hab [Hbc| <-].
  - apply ltb_asym. exact (ltb_trans a b c Hab Hbc).
  - apply ltb_asym. exact Hab.
Qed.

(** **** The bisector *)

Lemma double_bisect_left_partition (a : Double.series) (x : float)
      (lo hi k : nat) :
  lo <= k <= hi ->
  hi <= List.length a ->
  (forall j d, lo <= j < k -> nth_error a j = Some d ->
               Double.bisect_before d x = true) ->
  (forall j d, k <= j < hi -> nth_error a j = Some d ->
               Double.bisect_before d x = false) ->
  Double.bisect_left a x lo hi = Some k.
Proof.
  funelim (Double.bisect_left a x lo hi); intros Hk Hlen Hlow Hhigh;
    try (assert (Hmid : (lo + hi) / 2 < hi)
          by (apply Nat.Div0.div_lt_upper_bound; lia);
         assert (Hmid' : lo <= (lo + hi) / 2)
          by (apply Nat.div_le_lower_bound; lia)).
  - f_equal. lia.
  - exfalso. apply nth_error_None in Heq. lia.
  - assert ((lo + hi) / 2 < k).
    { destruct (le_lt_dec k ((lo + hi) / 2)) as [Hle|Hlt]; [|lia].
      rewrite (Hhigh _ _ (conj Hle Hmid) Heq0) in Heq. discriminate. }
    apply H; try lia.
    + intros j d' Hj. apply Hlow. lia.
    + intros j d' Hj. apply Hhigh. lia.
  - assert (k <= (lo + hi) / 2).
    { destruct (le_lt_dec k ((lo + hi) / 2)) as [Hle|Hlt]; [lia|].
      rewrite (Hlow _ _ (conj Hmid' Hlt) Heq0) in Heq. discriminate. }
    apply H; try lia.
    + intros j d' Hj. apply Hlow. lia.
    + intros j d' Hj. apply Hhigh. lia.
Qed.

(** **** Sorted series, by index *)

Lemma double_ascending_head (a : Double.series) :
  forall d, Double.strictly_ascending (d :: a) = true ->
  forall j dj, nth_error a j = Some dj ->
  (Double.year_of d <? Double.year_of dj)%float = true.
Proof.
  induction a as [|b a IH]; intros d H j dj Hj.
  - destruct j; discriminate.
  - simpl in H. apply andb_prop in H. destruct H as [Hdb Hrest].
    destruct j as [|j]; simpl in Hj.
    + injection Hj as <-. exact Hdb.
    + apply ltb_trans with (Double.year_of b); [exact Hdb|].
      exact (IH b Hrest j dj Hj).
Qed.

Lemma double_ascending_nth (a : Double.series) :
  Double.strictly_ascending a = true ->
  forall i j di dj, i < j ->
  nth_error a i = Some di -> nth_error a j = Some dj ->
  (Double.year_of di <? Double.year_of dj)%float = true.
Proof.
  induction a as [|d a IH]; intros H i j di dj Hij Hi Hj.
  - destruct i; discriminate.
  - destruct j as [|j]; [lia|]. simpl in Hj. destruct i as [|i]; simpl in Hi.
    + injection Hi as <-. exact (double_ascending_head a d H j dj Hj).
    + apply (IH) with (i := i) (j := j); try assumption; [|lia].
      destruct a as [|b a']; [reflexivity|].
      simpl in H. apply andb_prop in H. apply H.
Qed.

(** **** The interpolator *)

(** The interpolating branch of [interpolateValues] once the index is
    known. *)
Lemma double_interpolateValues_inner (values : Double.series) (year : float)
      (i : nat) (a b : Double.sample) :
  Double.bisect_left values year 0 (List.length values - 1) = Some (S i) ->
  nth_error values (S i) = Some a ->
  nth_error values i = Some b ->
  Double.interpolateValues values year =
  Some (let t := (year - Double.year_of a)
                 / (Double.year_of b - Double.year_of a) in
        Double.value_of a * (1 - t) + Double.value_of b * t)%float.
Proof.
  intros Hi Ha Hb. unfold Double.interpolateValues. rewrite Hi, Ha.
  change (0 <? S i) with true. cbv iota.
  replace (S i - 1) with i by lia. rewrite Hb. reflexivity.
Qed.

(** C1.  In doubles, in a series with strictly ascending years, a year
    strictly between the years of two neighbouring samples [lower] and
    [upper] gets [upper.value * (1 - s) + lower.value * s] with
    [s = (year - upper.year) / (lower.year - upper.year)], every operation
    rounded; over exact numbers that is
    [lower.value * (1 - t) + upper.value * t] with
    [t = (year - lower.year) / (upper.year - lower.year)]. *)
Theorem interpolateValues_between_upper :
  (forall (values : Double.series) (year : float) (i : nat)
          (lower upper : Double.sample),
      Double.strictly_ascending values = true ->
      nth_error values i = Some lower ->
      nth_error values (S i) = Some upper ->
      (Double.year_of lower <? year)%float = true ->
      (year <? Double.year_of upper)%float = true ->
      Double.interpolateValues values year =
      Some (let s := (year - Double.year_of upper)
                     / (Double.year_of lower - Double.year_of upper) in
            Double.value_of upper * (1 - s) + Double.value_of lower * s)%float)
  /\
  (forall lower_year lower_value upper_year upper_value year : Q,
      ~ (lower_year == upper_year)%Q ->
      let s := ((year - upper_year) / (lower_year - upper_year))%Q in
      let t := ((year - lower_year) / (upper_year - lower_year))%Q in
      (upper_value * (1 - s) + lower_value * s
       == lower_value * (1 - t) + upper_value * t)%Q).
Proof.
  split.
  - intros values year i lower upper Hs Hl Hu Hlo Hup.
    assert (Hlen : S i < List.length values)
      by (apply nth_error_Some; rewrite Hu; discriminate).
    apply (double_interpolateValues_inner values year i upper lower);
      try assumption.
    apply double_bisect_left_partition; try lia.
    + intros j d Hj Hd. unfold Double.bisect_before.
      destruct (Nat.eq_dec j i) as [->|Hne].
      * rewrite Hl in Hd. injection Hd as <-. exact Hlo.
      * apply ltb_trans with (Double.year_of lower); [|exact Hlo].
        apply (double_ascending_nth values Hs j i); [lia|assumption..].
    + intros j d Hj Hd. unfold Double.bisect_before.
      apply (ltb_not_below year (Double.year_of upper)); [exact Hup|].
      destruct (Nat.eq_dec j (S i)) as [->|Hne].
      * rewrite Hu in Hd. injection Hd as <-. right. reflexivity.
      * left. apply (double_ascending_nth values Hs (S i) j);
          [lia|assumption..].
  - intros ly lv uy uv year Hne. cbv zeta. field.
    split; intros H; apply Hne; lra.
Qed.

(** The scenario of the specification in doubles: exactly 150 at 1825
    between [[1800, 100]] and [[1850, 200]]. *)
Lemma interpolateValues_between_upper_scenario :
  Double.interpolateValues Double.scenario_series 1825%float
  = Some 150%float.
Proof.
  rewrite (proj1 interpolateValues_between_upper Double.scenario_series
             1825%float 0 (1800, 100)%float (1850, 200)%float);
    reflexivity.
Defined.

(** In doubles the two formulas differ: between [[0, 0]] and [[10, 1]]
    the year 3 gets 0.30000000000000004, whereas the formula of the
    description, evaluated as it is written, gives the double nearest to
    0.3. *)
Lemma interpolateValues_between_rounding :
  Double.strictly_ascending Double.tenths_series = true /\
  Double.interpolateValues Double.tenths_series 3%float
  = Some 0x1.3333333333334p-2%float /\
  Double.stated_interpolation (0, 0)%float (10, 1)%float 3%float
  = 0x1.3333333333333p-2%float /\
  Double.interpolateValues Double.tenths_series 3%float
  <> Some (Double.stated_interpolation (0, 0)%float (10, 1)%float 3%float).
Proof.
  repeat split; try reflexivity.
  intros H.
  apply (f_equal (fun o => match o with
                           | Some z => (z =? 0x1.3333333333333p-2)%float
                           | None => false
                           end)) in H.
  vm_compute in H. discriminate.
Qed.

(** C9.  In doubles, in a series of at least two samples with strictly
    ascending years, a year after the last sample's year does not make
    [interpolateValues] throw: the bisector stops at the last index, its
    upper bound, and the result is
    [last.value * (1 - s) + secondLast.value * s] with
    [s = (year - last.year) / (secondLast.year - last.year)], every
    operation rounded; over exact numbers that is the line through the
    last two samples, continued. *)
Theorem interpolateValues_after_last_capped :
  (forall (values : Double.series) (year : float)
          (last secondLast : Double.sample),
      Double.strictly_ascending values = true ->
      2 <= List.length values ->
      nth_error values (List.length values - 1) = Some last ->
      nth_error values (List.length values - 2) = Some secondLast ->
      (Double.year_of last <? year)%float = true ->
      Double.bisect_left values year 0 (List.length values - 1)
      = Some (List.length values - 1) /\
      Double.interpolateValues values year =
      Some (let s := (year - Double.year_of last)
                     / (Double.year_of secondLast - Double.year_of last) in
            Double.value_of last * (1 - s)
            + Double.value_of secondLast * s)%float)
  /\
  (forall last_year last_value secondLast_year secondLast_value year : Q,
      ~ (last_year == secondLast_year)%Q ->
      let s := ((year - last_year) / (secondLast_year - last_year))%Q in
      (last_value * (1 - s) + secondLast_value * s
       == last_value
          + (year - last_year) * (last_value - secondLast_value)
            / (last_year - secondLast_year))%Q).
Proof.
  split.
  - intros values year last secondLast Hs Hlen Hlast Hsl Hy.
    assert (Hi : Double.bisect_left values year 0 (List.length values - 1)
                 = Some (List.length values - 1)).
    { apply double_bisect_left_partition; try lia.
      intros j e Hj He. unfold Double.bisect_before.
      apply ltb_trans with (Double.year_of last); [|exact Hy].
      apply (double_ascending_nth values Hs j (List.length values - 1));
        [lia|assumption..]. }
    split; [exact Hi|].
    assert (Hn : List.length values - 1 = S (List.length values - 2)) by lia.
    apply (double_interpolateValues_inner values year
             (List.length values - 2) last secondLast);
      [rewrite <- Hn; exact Hi | rewrite <- Hn; exact Hlast | exact Hsl].
  - intros ly lv sy sv year Hne. cbv zeta. field.
    split; intros H; apply Hne; lra.
Qed.

(** The scenario series in doubles: 400 at 1950, past [[1900, 300]]. *)
Lemma interpolateValues_after_last_capped_scenario :
  Double.bisect_left Double.scenario_series 1950%float 0 2 = Some 2 /\
  Double.interpolateValues Double.scenario_series 1950%float
  = Some 400%float.
Proof.
  destruct (proj1 interpolateValues_after_last_capped Double.scenario_series
              1950%float (1900, 300)%float (1850, 200)%float)
    as [Hi Hv]; try reflexivity.
  - simpl; lia.
  - split; [exact Hi|]. rewrite Hv. reflexivity.
Defined.

(** In doubles the result is not always the stated extrapolation: past
    [[2000, 30.1]] and [[2007, 35.7]] the year 2009 gets the double nearest
    to 37.3, the stated formula 37.300000000000004; and past [[0, 0]] and
    [[1, 2^1023]] the year 3 gets [Infinity]. *)
Lemma interpolateValues_after_last_rounding :
  Double.strictly_ascending Double.life_series = true /\
  Double.interpolateValues Double.life_series 2009%float
  = Some 0x1.2a66666666666p+5%float /\
  Double.stated_extrapolation (2000, 30.1)%float (2007, 35.7)%float 2009%float
  = 0x1.2a66666666667p+5%float /\
  Double.interpolateValues Double.life_series 2009%float
  <> Some (Double.stated_extrapolation (2000, 30.1)%float (2007, 35.7)%float
             2009%float) /\
  Double.strictly_ascending Double.steep_series = true /\
  Double.interpolateValues Double.steep_series 3%float = Some infinity.
Proof.
  repeat split; try reflexivity.
  intros H.
  apply (f_equal (fun o => match o with
                           | Some z => (z =? 0x1.2a66666666667p+5)%float
                           | None => false
                           end)) in H.
  vm_compute in H. discriminate.
Qed.

(** **** The duration of a sweep *)

(** C4.  In doubles, [start()] creates the new sweep with the duration
    [duration - duration * lastTween], every operation rounded, whatever
    [lastTween] is; over exact numbers that is
    [duration * (1 - lastTween)]. *)
Theorem startPlaying_duration_rounded (s : Double.State) (p : float) :
  Double.lastTween (Double.pVals s) = Double.VNum p ->
  Double.schedules (Double.startPlaying s) =
    Double.schedules s ++
    [{| Double.tid := Double.next_id s;
        Double.tduration := (209000 - 209000 * p)%float;
        Double.tstatus := SCHEDULED;
        Double.tween := None |}] /\
  forall q : Q, (209000 - 209000 * q == 209000 * (1 - q))%Q.
Proof.
  intros Hp. split.
  - unfold Double.startPlaying, Double.remaining_duration. rewrite Hp.
    reflexivity.
  - intros q. ring.
Qed.

(** The scenario of the specification in doubles: exactly 104500 ms of
    the 209000 at one half. *)
Lemma startPlaying_duration_rounded_half :
  map Double.tduration
      (Double.schedules (Double.startPlaying (Double.paused_at 0.5%float)))
  = [104500%float].
Proof.
  rewrite (proj1 (startPlaying_duration_rounded
                    (Double.paused_at 0.5%float) 0.5%float eq_refl)).
  reflexivity.
Defined.

(** In doubles the duration is not always the stated product: at the
    double nearest to 0.7 the sweep gets 62700 ms, whereas
    [duration * (1 - 0.7)] evaluates to 62700.00000000001; and 62700 is
    not the exact product for that double either. *)
Lemma startPlaying_duration_rounding :
  map Double.tduration
      (Double.schedules (Double.startPlaying (Double.paused_at 0.7%float)))
  = [62700%float] /\
  Double.stated_duration 0.7%float = 0x1.e9d8000000001p+15%float /\
  (62700 =? Double.stated_duration 0.7)%float = false /\
  exists q r : Q,
    Double.exact 0.7%float = Some q /\
    Double.exact 62700%float = Some r /\
    ~ (r == 209000 * (1 - q))%Q.
Proof.
  split; [reflexivity|]. split; [reflexivity|]. split; [reflexivity|].
  eexists. eexists. split; [vm_compute; reflexivity|].
  split; [vm_compute; reflexivity|].
  intros H. apply Qeq_bool_iff in H. vm_compute in H. discriminate.
Qed.

End Doubles.

(** *** Frame conditions of the listeners *)

Section Sweep.

Variable nations : list nation.
Variables box_x box_width : Q.

Lemma displayYear_frame (year : num) (s : State) :
  let s' := state_of (displayYear nations year s) in
  pVals s' = pVals s /\ schedules s' = schedules s /\
  next_id s' = next_id s /\ armed s' = armed s.
Proof.
  unfold displayYear.
  destruct (interpolateData nations year); simpl; auto.
Qed.

Lemma displayYear_returns (year : num) (s : State) :
  has_data nations = true ->
  exists frame,
    interpolateData nations year = Some frame /\
    displayYear nations year s =
    Returned (with_display
                {| dots := frame;
                   label := round year;
                   label_active := label_active (display s);
                   slider_value := trimAlignValue (round year);
                   handle_text := trimAlignValue (round year) |} s).
Proof.
  intros H. destruct (interpolateData_total nations year H) as [frame Hf].
  exists frame. split; [exact Hf|].
  unfold displayYear. rewrite Hf. reflexivity.
Qed.

Lemma tween_call_frame (year : interpolator) (t : value) (s : State) :
  let s' := state_of (tween_call nations year t s) in
  pVals s' = tween_pVals year t (pVals s) /\
  schedules s' = schedules s /\
  next_id s' = next_id s /\ armed s' = armed s.
Proof.
  unfold tween_call. cbv zeta.
  match goal with |- context [displayYear nations ?y ?s1] =>
    destruct (displayYear_frame y s1) as (Hp & Hs & Hn & Ha) end.
  rewrite Hp, Hs, Hn, Ha. auto.
Qed.

Lemma find_transition_some (id : nat) (s : State) (o : transition) :
  find_transition id s = Some o -> In o (schedules s) /\ tid o = id.
Proof.
  unfold find_transition. intros H. apply find_some in H.
  destruct H as [Hin Hid]. apply Nat.eqb_eq in Hid. auto.
Qed.

(** One tick, spelled out for a running transition. *)
Lemma timer_tick_running (id : nat) (elapsed : Q) (s : State)
      (o : transition) (year : interpolator) :
  find_transition id s = Some o ->
  tstatus o = RUNNING ->
  tween o = Some year ->
  let s' := timer_tick nations id elapsed s in
  pVals s' = tween_pVals year (VNum (tick_time elapsed (tduration o))) (pVals s) /\
  schedules s' =
    (if lt (Fin elapsed) (tduration o) then schedules s
     else filter (fun o => negb (tid o =? id)) (schedules s)) /\
  next_id s' = next_id s.
Proof.
  intros Hf Hst Htw. unfold timer_tick. rewrite Hf.
  destruct o as [i d st tw]. simpl in Hst, Htw. subst st tw.
  cbv beta iota zeta. unfold tduration.
  destruct (tween_call_frame year (VNum (tick_time elapsed d)) s)
    as (Hp & Hs & Hn & _).
  destruct (tween_call nations year (VNum (tick_time elapsed d)) s) as [s'|s'];
    simpl in Hp, Hs, Hn;
    destruct (lt (Fin elapsed) d); simpl; rewrite ?Hp, ?Hs, ?Hn; auto.
Qed.

(** *** The invariant *)

Lemma dispatch_interrupts_spec (l : list transition) (p : PVals) :
  dispatch_interrupts l p =
  if existsb is_running l then on_interrupt p else p.
Proof.
  assert (Hidem : forall l q,
             dispatch_interrupts l (on_interrupt q) = on_interrupt q).
  { clear. induction l as [|o l IH]; intros q; [reflexivity|].
    unfold dispatch_interrupts in *. simpl.
    destruct (is_running o); [|apply IH].
    change (on_interrupt (on_interrupt q)) with (on_interrupt q). apply IH. }
  revert p. induction l as [|o l IH]; intros p; [reflexivity|].
  unfold dispatch_interrupts in *. simpl.
  destruct (is_running o); simpl; [apply Hidem|apply IH].
Qed.

Lemma NoDup_map_filter {A B : Type} (f : A -> B) (g : A -> bool) (l : list A) :
  NoDup (map f l) -> NoDup (map f (filter g l)).
Proof.
  induction l as [|x l IH]; simpl; intros H; [constructor|].
  inversion H as [|? ? Hnotin Hnd]; subst.
  destruct (g x); simpl; [|auto].
  constructor; [|auto].
  intros Hin. apply Hnotin. apply in_map_iff in Hin.
  destruct Hin as [y [Hy Hin]]. apply filter_In in Hin.
  apply in_map_iff. exists y. tauto.
Qed.

Lemma Forall_filter_keep {A : Type} (P : A -> Prop) (g : A -> bool) (l : list A) :
  Forall P l -> Forall P (filter g l).
Proof.
  rewrite !Forall_forall. intros H x Hx. apply filter_In in Hx. apply H, Hx.
Qed.

(** Removing transitions keeps the transitions in order. *)
Lemma transitions_ok_filter (g : transition -> bool) (s s' : State) :
  schedules s' = filter g (schedules s) ->
  next_id s' = next_id s ->
  finite (lastTween (pVals s')) ->
  transitions_ok s -> transitions_ok s'.
Proof.
  intros Hs Hn Hl [H1 H2 H3 H4 _].
  constructor; rewrite ?Hs, ?Hn;
    auto using Forall_filter_keep, NoDup_map_filter.
Qed.

Lemma transitions_ok_same (s s' : State) :
  schedules s' = schedules s ->
  next_id s' = next_id s ->
  finite (lastTween (pVals s')) ->
  transitions_ok s -> transitions_ok s'.
Proof.
  intros Hs Hn Hl [H1 H2 H3 H4 _].
  constructor; rewrite ?Hs, ?Hn; auto.
Qed.

Lemma existsb_filter_false {A : Type} (f g : A -> bool) (l : list A) :
  existsb f l = false -> existsb f (filter g l) = false.
Proof.
  intros H. apply not_true_iff_false. intros Hex.
  apply existsb_exists in Hex. destruct Hex as [x [Hin Hx]].
  apply filter_In in Hin. apply not_true_iff_false in H. apply H.
  apply existsb_exists. exists x. tauto.
Qed.

Lemma startPlaying_invariant (s : State) :
  invariant s -> invariant (startPlaying s).
Proof.
  intros [[H1 H2 H3 H4 H5] Hc]. split; [constructor|]; simpl.
  - apply Forall_app. split.
    + eapply Forall_impl; [|exact H1]. simpl. intros; lia.
    + repeat constructor.
  - rewrite map_app. simpl.
    apply NoDup_app; [exact H2|repeat constructor; intros []|].
    intros x Hx [<-|[]]. apply in_map_iff in Hx.
    destruct Hx as [o [Ho Hin]].
    rewrite Forall_forall in H1. specialize (H1 o Hin). lia.
  - apply Forall_app. split; [exact H3|].
    repeat constructor. discriminate.
  - apply Forall_app. split; [exact H4|].
    repeat constructor. destruct H5 as [q Hq].
    unfold remaining_duration. rewrite Hq. simpl. eauto.
  - exact H5.
  - rewrite existsb_app. simpl. rewrite !orb_false_r. exact Hc.
Qed.

Lemma stopPlaying_invariant (s : State) :
  invariant s -> invariant (stopPlaying s).
Proof.
  intros [[H1 H2 H3 H4 H5] Hc]. split; [constructor|]; simpl;
    try constructor; try discriminate.
  rewrite dispatch_interrupts_spec.
  destruct (existsb is_running (schedules s)); [apply Hc; reflexivity|exact H5].
Qed.

(** A tick at a time that is not negative hands a finite [t] to the
    tween. *)
Lemma tick_time_finite (elapsed d : Q) :
  (0 <= elapsed)%Q ->
  exists t : Q,
    tick_time elapsed (Fin d) = Fin t /\
    (t == if Qltb elapsed d then elapsed / d else 1)%Q.
Proof.
  intros He. unfold tick_time, lt.
  destruct (Qltb elapsed d) eqn:E.
  - apply Qltb_lt in E. unfold div.
    rewrite Qeq_bool_false by lra.
    eexists. split; reflexivity.
  - eexists. split; reflexivity.
Qed.

Lemma has_status_find (id : nat) (st : transition -> bool) (s : State) :
  has_status id st s = true ->
  exists o, find_transition id s = Some o /\ st o = true.
Proof.
  unfold has_status. destruct (find_transition id s) as [o|]; [eauto|discriminate].
Qed.

Lemma is_running_status (o : transition) :
  is_running o = true -> tstatus o = RUNNING.
Proof. unfold is_running. destruct (tstatus o); [discriminate|reflexivity]. Qed.

Lemma timer_tick_invariant (id : nat) (elapsed : Q) (s : State) :
  transitions_ok s ->
  has_status id is_running s = true ->
  (0 <= elapsed)%Q ->
  invariant (timer_tick nations id elapsed s).
Proof.
  intros Hok Hrun He.
  destruct (has_status_find _ _ _ Hrun) as [o [Hf Ho]].
  destruct (find_transition_some _ _ _ Hf) as [Hin _].
  pose proof (ok_tween s Hok) as Htw. rewrite Forall_forall in Htw.
  pose proof (ok_duration s Hok) as Hd. rewrite Forall_forall in Hd.
  destruct (Hd o Hin) as [d Hdo].
  destruct (timer_tick_running id elapsed s o sweep_tween Hf
              (is_running_status o Ho) (Htw o Hin Ho)) as (Hp & Hs & Hn).
  destruct (ok_last s Hok) as [p Hlast].
  destruct (tick_time_finite elapsed d He) as [t [Ht _]].
  assert (Hfin : finite (lastTween (pVals (timer_tick nations id elapsed s))))
    by (rewrite Hp; simpl; exists p; exact Hlast).
  split.
  - destruct (lt (Fin elapsed) (tduration o)).
    + exact (transitions_ok_same s _ Hs Hn Hfin Hok).
    + exact (transitions_ok_filter _ s _ Hs Hn Hfin Hok).
  - intros _. rewrite Hp. unfold tween_pVals. cbv zeta. simpl currTween.
    rewrite Hdo, Ht, Hlast. simpl. eexists. reflexivity.
Qed.

Lemma find_filter {A : Type} (f g : A -> bool) (l : list A) (x : A) :
  find f l = Some x -> g x = true -> find f (filter g l) = Some x.
Proof.
  induction l as [|y l IH]; simpl; [discriminate|].
  destruct (f y) eqn:Hf.
  - intros [= ->] Hg. rewrite Hg. simpl. rewrite Hf. reflexivity.
  - intros Hx Hg. destruct (g y); simpl; rewrite ?Hf; auto.
Qed.

Lemma find_map_tid (upd : transition -> transition) (id : nat)
      (l : list transition) (o : transition) :
  (forall o, tid (upd o) = tid o) ->
  find (fun o => tid o =? id) l = Some o ->
  find (fun o => tid o =? id) (map upd l) = Some (upd o).
Proof.
  intros Hupd. induction l as [|y l IH]; simpl; [discriminate|].
  rewrite Hupd. destruct (tid y =? id); [intros [= ->]; reflexivity|exact IH].
Qed.

Lemma interpolate_at_NaN (year : interpolator) : interpolate_at year NaN = NaN.
Proof.
  unfold interpolate_at. destruct (from_a year), (delta_b year); reflexivity.
Qed.

(** The [start] listener calls the tween function without an argument,
    which leaves NaN in [currTween] and [currYear]; the tween factory,
    called next, therefore tweens from 1800 whatever year was recorded
    before. *)
Lemma tweenYear_after_start (year : interpolator) (p : PVals) :
  tween_pVals year VUndef p =
    {| lastTween := lastTween p; currTween := VNum NaN; currYear := VNum NaN |}
  /\ tweenYear (tween_pVals year VUndef p) = sweep_tween.
Proof.
  unfold tween_pVals. cbv zeta.
  change (to_num VUndef + to_num (lastTween p))%js with NaN.
  rewrite interpolate_at_NaN. split; reflexivity.
Qed.

Lemma invariant_frame (s s' : State) :
  schedules s' = schedules s ->
  next_id s' = next_id s ->
  finite (lastTween (pVals s')) ->
  currTween (pVals s') = currTween (pVals s) ->
  invariant s -> invariant s'.
Proof.
  intros Hs Hn Hl Hc [Hok Hcur]. split.
  - exact (transitions_ok_same s s' Hs Hn Hl Hok).
  - rewrite Hs, Hc. exact Hcur.
Qed.

Lemma preempt_ok (self : nat) (s : State) :
  invariant s ->
  transitions_ok (preempt self s) /\
  existsb is_running (schedules (preempt self s)) = false.
Proof.
  intros [Hok Hc]. split.
  - apply (transitions_ok_filter
             (fun o => negb (is_running o) && negb (tid o <? self)) s);
      try reflexivity; [|exact Hok].
    simpl. rewrite dispatch_interrupts_spec.
    destruct (existsb is_running (schedules s));
      [apply Hc; reflexivity|exact (ok_last s Hok)].
  - simpl. apply not_true_iff_false. intros H.
    apply existsb_exists in H. destruct H as [o [Hin Ho]].
    apply filter_In in Hin. destruct Hin as [_ Hg].
    rewrite Ho in Hg. discriminate.
Qed.

Lemma timer_start_invariant (self : nat) (elapsed : Q) (s : State) :
  invariant s ->
  has_status self is_scheduled s = true ->
  (0 <= elapsed)%Q ->
  invariant (timer_start nations self elapsed s).
Proof.
  intros Hinv Hsched He.
  destruct (preempt_ok self s Hinv) as [Hok1 Hnorun].
  destruct (has_status_find _ _ _ Hsched) as [o [Hf Ho]].
  assert (Hf1 : find_transition self (preempt self s) = Some o).
  { unfold find_transition. simpl. apply find_filter; [exact Hf|].
    destruct (find_transition_some _ _ _ Hf) as [_ Hid].
    unfold is_scheduled in Ho. unfold is_running.
    destruct (tstatus o); [|discriminate]. simpl.
    rewrite Hid. rewrite Nat.ltb_irrefl. reflexivity. }
  unfold timer_start. cbv zeta.
  set (s1 := preempt self s) in *.
  destruct (tween_call_frame (tweenYear (pVals s1)) VUndef s1)
    as (Hp & Hs & Hn & _).
  destruct (tweenYear_after_start (tweenYear (pVals s1)) (pVals s1))
    as [Hp' Htw].
  assert (Hlast : forall s2, pVals s2 = tween_pVals (tweenYear (pVals s1)) VUndef (pVals s1) ->
                             finite (lastTween (pVals s2))).
  { intros s2 E. rewrite E, Hp'. simpl. exact (ok_last s1 Hok1). }
  destruct (tween_call nations (tweenYear (pVals s1)) VUndef s1) as [s2|s2];
    cbv beta iota delta [state_of] in Hp, Hs, Hn.
  - (* the listener returned *)
    rewrite Hp, Htw.
    apply timer_tick_invariant; [| |exact He].
    2:{ unfold has_status, find_transition, set_running. simpl.
        rewrite Hs.
        rewrite (find_map_tid _ self _ o);
          [|intros o'; destruct (tid o' =? self); reflexivity|exact Hf1].
        destruct (find_transition_some _ _ _ Hf) as [_ Hid].
        rewrite Hid, Nat.eqb_refl. reflexivity. }
    destruct Hok1 as [H1 H2 H3 H4 H5].
    constructor; simpl; rewrite ?Hs, ?Hn.
    + rewrite Forall_forall in *. intros x Hx. apply in_map_iff in Hx.
      destruct Hx as [y [<- Hy]]. specialize (H1 y Hy).
      destruct (tid y =? self); exact H1.
    + rewrite map_map.
      erewrite map_ext; [exact H2|].
      intros y. simpl. destruct (tid y =? self); reflexivity.
    + rewrite Forall_forall. intros x Hx. apply in_map_iff in Hx.
      destruct Hx as [y [<- Hy]].
      destruct (tid y =? self); [reflexivity|].
      intros Hr. exfalso. apply not_true_iff_false in Hnorun. apply Hnorun.
      apply existsb_exists. exists y. auto.
    + rewrite Forall_forall in *. intros x Hx. apply in_map_iff in Hx.
      destruct Hx as [y [<- Hy]]. specialize (H4 y Hy).
      destruct (tid y =? self); exact H4.
    + exact (Hlast s2 Hp).
  - (* the listener threw *)
    split.
    + apply (transitions_ok_filter (fun o => negb (tid o =? self)) s1);
        simpl; rewrite ?Hs, ?Hn; auto.
    + simpl. rewrite Hs. rewrite existsb_filter_false by exact Hnorun.
      discriminate.
Qed.

Lemma calRatio_lastTween (l c : value) (v : Q) :
  calRatio {| lastTween := l; currTween := c; currYear := VNum (Fin v) |} =
  {| lastTween := VNum (Fin ((v - 1800) / (2009 - 1800))%Q);
     currTween := c;
     currYear := VNum (Fin v) |}.
Proof. reflexivity. Qed.

Lemma slide_frame (v : Q) (s : State) :
  let s' := slide nations v s in
  pVals s' = {| lastTween := VNum (Fin ((v - 1800) / (2009 - 1800))%Q);
                currTween := currTween (pVals s);
                currYear := VNum (Fin v) |} /\
  schedules s' = schedules s /\ next_id s' = next_id s /\ armed s' = armed s.
Proof.
  unfold slide. cbv zeta.
  match goal with |- context [displayYear nations ?y ?s1] =>
    destruct (displayYear_frame y s1) as (Hp & Hs & Hn & Ha) end.
  rewrite Hp, Hs, Hn, Ha. simpl. rewrite calRatio_lastTween. auto.
Qed.

Lemma exec_invariant (s : State) (e : event) :
  invariant s -> invariant (exec nations box_x box_width s e).
Proof.
  intros Hinv. unfold exec. destruct (enabled s e) eqn:Hen; [|exact Hinv].
  destruct e as [| |id el|id el| | |x|v]; simpl in *.
  - apply startPlaying_invariant, Hinv.
  - apply stopPlaying_invariant, Hinv.
  - apply andb_prop in Hen. destruct Hen as [H1 H2].
    apply Qle_bool_iff in H2. apply timer_start_invariant; assumption.
  - apply andb_prop in Hen. destruct Hen as [H1 H2].
    apply Qle_bool_iff in H2. apply timer_tick_invariant; try assumption.
    apply Hinv.
  - destruct (armed s); apply (invariant_frame s); try reflexivity;
      try exact Hinv; exact (ok_last s (proj1 Hinv)).
  - destruct (armed s); [|exact Hinv].
    apply (invariant_frame s); try reflexivity;
      try exact Hinv; exact (ok_last s (proj1 Hinv)).
  - destruct (armed s); [|exact Hinv]. unfold mousemove.
    destruct (displayYear_frame (Fin (yearScale_invert box_x box_width x)) s)
      as (Hp & Hs & Hn & _).
    apply (invariant_frame s); try assumption; rewrite ?Hp;
      try reflexivity. exact (ok_last s (proj1 Hinv)).
  - destruct (slide_frame (inject_Z v) s) as (Hp & Hs & Hn & _).
    apply (invariant_frame s); try assumption; rewrite Hp; simpl;
      [eexists; reflexivity|reflexivity].
Qed.

Lemma run_invariant (es : list event) :
  forall s, invariant s -> invariant (run nations box_x box_width s es).
Proof.
  induction es as [|e es IH]; intros s Hinv; [exact Hinv|].
  simpl. apply IH. apply exec_invariant, Hinv.
Qed.

Lemma init_invariant (s0 : State) : init nations = Some s0 -> invariant s0.
Proof.
  unfold init. destruct (interpolateData nations (Fin 1800%Q)); [|discriminate].
  intros [= <-]. split; [constructor|]; simpl;
    try constructor; try discriminate.
  eexists; reflexivity.
Qed.

Lemma reachable_invariant (s : State) :
  reachable nations box_x box_width s -> invariant s.
Proof.
  intros (s0 & es & Hinit & ->).
  apply run_invariant, init_invariant, Hinit.
Qed.

Lemma reachable_has_data (s : State) :
  reachable nations box_x box_width s -> has_data nations = true.
Proof.
  intros (s0 & es & Hinit & _). unfold init in Hinit.
  destruct (interpolateData nations (Fin 1800%Q)) as [frame|] eqn:E;
    [|discriminate].
  exact (interpolateData_has_data nations _ frame E).
Qed.

Lemma reachable_exec (s : State) (e : event) :
  reachable nations box_x box_width s ->
  reachable nations box_x box_width (exec nations box_x box_width s e).
Proof.
  intros (s0 & es & Hinit & ->). exists s0, (es ++ [e]).
  split; [exact Hinit|]. unfold run. rewrite fold_left_app. reflexivity.
Qed.

(** *** Rounding *)

Lemma Qround_comp (x y : Q) : (x == y)%Q -> Qround x = Qround y.
Proof. intros H. unfold Qround. rewrite H. reflexivity. Qed.

Lemma Qround_inject_Z (z : Z) : Qround (inject_Z z) = z.
Proof.
  unfold Qround, Qfloor, Qplus, inject_Z. simpl.
  symmetry. apply Z.div_unique with (r := 1%Z); lia.
Qed.

Lemma year_of_fraction_finite (c : Q) :
  year_of_fraction (VNum (Fin c)) =
  Fin (inject_Z (Qround (1800 + c * (2009 - 1800)))).
Proof. reflexivity. Qed.

(** *** Pointer scrub *)

(** C8.  A pointer movement over the overlay shows the frame of the
    year under the pointer, with the label and the slider at the rounded
    year, and leaves [window.pVals] and the transitions as they were. *)
Theorem mousemove_transient (x : Q) (s : State) :
  let year := Fin (yearScale_invert box_x box_width x) in
  let s' := mousemove nations box_x box_width x s in
  pVals s' = pVals s /\
  schedules s' = schedules s /\
  match interpolateData nations year with
  | Some frame =>
      display s' = {| dots := frame;
                      label := round year;
                      label_active := label_active (display s);
                      slider_value := trimAlignValue (round year);
                      handle_text := trimAlignValue (round year) |}
  | None => display s' = display s
  end /\
  pVals (exec nations box_x box_width s (MouseMove x)) = pVals s.
Proof.
  cbv zeta. unfold exec, handle, enabled, mousemove.
  destruct (displayYear_frame (Fin (yearScale_invert box_x box_width x)) s)
    as (Hp & Hs & _).
  repeat split; try assumption.
  - unfold displayYear.
    destruct (interpolateData nations _); reflexivity.
  - destruct (armed s); [exact Hp|reflexivity].
Qed.

(** *** At most one running sweep *)

Lemma timer_tick_schedules (id : nat) (elapsed : Q) (s : State) :
  schedules (timer_tick nations id elapsed s) = schedules s \/
  schedules (timer_tick nations id elapsed s) =
    filter (fun o => negb (tid o =? id)) (schedules s).
Proof.
  unfold timer_tick.
  destruct (find_transition id s) as [[i d [|] [year|]]|]; auto.
  destruct (tween_call_frame year (VNum (tick_time elapsed d)) s)
    as (_ & Hs & _).
  destruct (tween_call nations year (VNum (tick_time elapsed d)) s) as [s'|s'];
    simpl in Hs; destruct (negb (lt (Fin elapsed) d)); simpl;
    rewrite ?Hs; auto.
Qed.

Lemma filter_filter_length {A : Type} (f g : A -> bool) (l : list A) :
  List.length (filter f (filter g l)) <= List.length (filter f l).
Proof.
  induction l as [|x l IH]; simpl; [lia|].
  destruct (g x); simpl; destruct (f x); simpl; lia.
Qed.

Lemma timer_tick_running_count (id : nat) (elapsed : Q) (s : State) :
  running_count (timer_tick nations id elapsed s) <= running_count s.
Proof.
  unfold running_count.
  destruct (timer_tick_schedules id elapsed s) as [-> | ->];
    [lia|apply filter_filter_length].
Qed.

(** Once a transition has started, no other one is running. *)
Lemma timer_start_only_self (self : nat) (elapsed : Q) (s : State)
      (o : transition) :
  In o (schedules (timer_start nations self elapsed s)) ->
  is_running o = true -> tid o = self.
Proof.
  unfold timer_start. cbv zeta.
  set (s1 := preempt self s).
  assert (Hnone : forall x, In x (schedules s1) -> is_running x = false).
  { intros x Hx. simpl in Hx. apply filter_In in Hx.
    destruct Hx as [_ Hx]. apply andb_prop in Hx.
    destruct Hx as [Hx _]. apply negb_true_iff in Hx. exact Hx. }
  destruct (tween_call_frame (tweenYear (pVals s1)) VUndef s1)
    as (_ & Hs & _).
  destruct (tween_call nations (tweenYear (pVals s1)) VUndef s1) as [s2|s2];
    cbv beta iota delta [state_of] in Hs.
  - intros Hin Hrun.
    assert (Hin3 : In o (schedules (set_running self (tweenYear (pVals s2)) s2))).
    { destruct (timer_tick_schedules self elapsed
                  (set_running self (tweenYear (pVals s2)) s2)) as [E|E];
        rewrite E in Hin; [exact Hin|].
      apply filter_In in Hin. apply Hin. }
    simpl in Hin3. rewrite Hs in Hin3. apply in_map_iff in Hin3.
    destruct Hin3 as [y [Hy Hiny]].
    destruct (tid y =? self) eqn:E.
    + subst o. simpl. apply Nat.eqb_eq, E.
    + subst o. rewrite (Hnone y Hiny) in Hrun. discriminate.
  - simpl. rewrite Hs. intros Hin Hrun. apply filter_In in Hin.
    destruct Hin as [Hin _]. rewrite (Hnone o Hin) in Hrun. discriminate.
Qed.

Lemma running_count_same_id (l : list transition) (self : nat) :
  NoDup (map tid l) ->
  (forall o, In o l -> is_running o = true -> tid o = self) ->
  List.length (filter is_running l) <= 1.
Proof.
  intros Hnd Hself.
  pose proof (NoDup_map_filter tid is_running l Hnd) as Hnd'.
  assert (Hall : forall o, In o (filter is_running l) -> tid o = self).
  { intros o Ho. apply filter_In in Ho. apply Hself; apply Ho. }
  destruct (filter is_running l) as [|x [|y rest]]; simpl; try lia.
  exfalso. simpl in Hnd'. inversion Hnd' as [|? ? Hnotin _]; subst.
  apply Hnotin. left.
  rewrite (Hall x), (Hall y); simpl; auto.
Qed.

Lemma exec_running_count (s : State) (e : event) :
  invariant s -> running_count s <= 1 ->
  running_count (exec nations box_x box_width s e) <= 1.
Proof.
  intros Hinv Hone.
  pose proof (exec_invariant s e Hinv) as Hinv'.
  unfold exec in *. destruct (enabled s e) eqn:Hen; [|exact Hone].
  destruct e as [| |id el|id el| | |x|v]; simpl in *.
  - unfold running_count in *. simpl. rewrite filter_app. simpl.
    rewrite length_app. simpl. lia.
  - unfold running_count. simpl. lia.
  - apply (running_count_same_id _ id).
    + exact (ok_nodup _ (proj1 Hinv')).
    + intros o. apply timer_start_only_self.
  - pose proof (timer_tick_running_count id el s). lia.
  - destruct (armed s); exact Hone.
  - destruct (armed s); exact Hone.
  - destruct (armed s); [|exact Hone]. unfold mousemove, running_count.
    destruct (displayYear_frame (Fin (yearScale_invert box_x box_width x)) s)
      as (_ & Hs & _). rewrite Hs. exact Hone.
  - unfold running_count.
    destruct (slide_frame (inject_Z v) s) as (_ & Hs & _).
    rewrite Hs. exact Hone.
Qed.

Lemma reachable_running_count (s : State) :
  reachable nations box_x box_width s -> running_count s <= 1.
Proof.
  intros (s0 & es & Hinit & ->).
  pose proof (init_invariant s0 Hinit) as Hinv.
  assert (H0 : running_count s0 <= 1).
  { unfold init in Hinit.
    destruct (interpolateData nations (Fin 1800%Q)); [|discriminate].
    injection Hinit as <-. unfold running_count. simpl. lia. }
  clear Hinit. revert s0 Hinv H0.
  induction es as [|e es IH]; intros s0 Hinv H0; [exact H0|].
  simpl. apply IH; [apply exec_invariant, Hinv|apply exec_running_count; assumption].
Qed.

(** C3, as the code has it.  [start()] is not guarded: also while a
    sweep is running it creates one more transition, scheduled with the
    duration that [lastTween] gives at that moment, and leaves the
    running one alone until the new one starts.  What keeps the sweeps
    from overlapping is D3: the transitions share a name, so a
    transition that starts interrupts the running one, and in every
    state at most one transition is running. *)
Theorem one_running_sweep (s : State) :
  reachable nations box_x box_width s ->
  running_count s <= 1 /\
  (let s' := exec nations box_x box_width s ClickPlay in
   schedules s' =
     schedules s ++ [{| tid := next_id s;
                        tduration := remaining_duration (pVals s);
                        tstatus := SCHEDULED;
                        tween := None |}] /\
   pVals s' = pVals s /\
   running_count s' = running_count s) /\
  (forall id elapsed o,
      In o (schedules (exec nations box_x box_width s (TimerStart id elapsed))) ->
      is_running o = true ->
      enabled s (TimerStart id elapsed) = true ->
      tid o = id).
Proof.
  intros Hr. split; [exact (reachable_running_count s Hr)|]. split.
  - cbv zeta. unfold exec. simpl. repeat split.
    unfold running_count. simpl. rewrite filter_app. simpl.
    rewrite length_app. simpl. lia.
  - intros id elapsed o Hin Hrun Hen. unfold exec in Hin.
    rewrite Hen in Hin. simpl in Hin.
    exact (timer_start_only_self id elapsed s o Hin Hrun).
Qed.

(** *** Starting and resuming a sweep *)

Lemma tween_call_returns (year : interpolator) (t : value) (s : State) :
  has_data nations = true ->
  exists d : Display,
    tween_call nations year t s =
    Returned (with_display d (with_pVals (tween_pVals year t (pVals s)) s)).
Proof.
  intros H. unfold tween_call. cbv zeta.
  match goal with |- context [displayYear nations ?y ?s1] =>
    destruct (displayYear_returns y s1 H) as [frame [_ ->]] end.
  eexists. reflexivity.
Qed.

(** The state of [window.pVals] after a scheduled transition has
    started and ticked for the first time: the tween adds the eased time
    to the fraction committed in [lastTween], on a sweep from 1800. *)
Lemma timer_start_pVals (self : nat) (elapsed : Q) (s : State)
      (o : transition) :
  has_data nations = true ->
  find_transition self s = Some o ->
  tstatus o = SCHEDULED ->
  pVals (timer_start nations self elapsed s) =
  tween_pVals sweep_tween (VNum (tick_time elapsed (tduration o)))
    {| lastTween := lastTween (dispatch_interrupts (schedules s) (pVals s));
       currTween := VNum NaN;
       currYear := VNum NaN |}.
Proof.
  intros Hdata Hf Hst.
  destruct (find_transition_some _ _ _ Hf) as [_ Hid].
  assert (Hf1 : find_transition self (preempt self s) = Some o).
  { unfold find_transition. simpl. apply find_filter; [exact Hf|].
    unfold is_running. rewrite Hst, Hid, Nat.ltb_irrefl. reflexivity. }
  unfold timer_start. cbv zeta.
  set (s1 := preempt self s) in *.
  destruct (tween_call_returns (tweenYear (pVals s1)) VUndef s1 Hdata)
    as [d ->].
  destruct (tweenYear_after_start (tweenYear (pVals s1)) (pVals s1))
    as [Hp Htw].
  set (s2 := with_display d _).
  change (pVals s2) with (tween_pVals (tweenYear (pVals s1)) VUndef (pVals s1)).
  rewrite Htw.
  destruct (timer_tick_running self elapsed (set_running self sweep_tween s2)
              {| tid := tid o; tduration := tduration o;
                 tstatus := RUNNING; tween := Some sweep_tween |}
              sweep_tween) as (Hp3 & _); try reflexivity.
  - unfold find_transition, set_running. simpl.
    rewrite (find_map_tid _ self _ o);
      [|intros o'; destruct (tid o' =? self); reflexivity|exact Hf1].
    rewrite Hid, Nat.eqb_refl. reflexivity.
  - rewrite Hp3. simpl tduration.
    change (pVals (set_running self sweep_tween s2))
      with (tween_pVals (tweenYear (pVals s1)) VUndef (pVals s1)).
    rewrite Hp. reflexivity.
Qed.

Lemma find_new_transition (l : list transition) (n : nat) (o : transition) :
  Forall (fun x => tid x < n) l -> tid o = n ->
  find (fun x => tid x =? n) (l ++ [o]) = Some o.
Proof.
  intros Hl Ho. induction Hl as [|x l Hx _ IH]; simpl.
  - rewrite Ho, Nat.eqb_refl. reflexivity.
  - destruct (tid x =? n) eqn:E; [apply Nat.eqb_eq in E; lia|exact IH].
Qed.

(** C10.  The [slide] listener stores the slider's value in [currYear]
    and its fraction of the range in [lastTween], and a [start()] that
    follows creates a sweep whose duration comes from that fraction.
    When that sweep starts and no other sweep is running, its tween adds
    its eased time to the scrubbed fraction; when a sweep is running, the
    [interrupt] listener of that sweep first overwrites [lastTween] with
    its [currTween], and the new sweep goes on from there. *)
Theorem scrub_then_start (v : Q) (s : State) :
  let fraction := ((v - 1800) / (2009 - 1800))%Q in
  let d := (duration - duration * fraction)%Q in
  let s1 := slide nations v s in
  pVals s1 = {| lastTween := VNum (Fin fraction);
                currTween := currTween (pVals s);
                currYear := VNum (Fin v) |} /\
  schedules (startPlaying s1) =
    schedules s ++ [{| tid := next_id s; tduration := Fin d;
                       tstatus := SCHEDULED; tween := None |}] /\
  forall elapsed : Q,
    reachable nations box_x box_width s ->
    (0 <= elapsed)%Q ->
    let s2 := timer_start nations (next_id s) elapsed (startPlaying s1) in
    exists p c : Q,
      (if playing s then currTween (pVals s) else VNum (Fin fraction))
      = VNum (Fin p) /\
      lastTween (pVals s2) = VNum (Fin p) /\
      currTween (pVals s2) = VNum (Fin c) /\
      (c == (if Qltb elapsed d then elapsed / d else 1) + p)%Q.
Proof.
  cbv zeta. destruct (slide_frame v s) as (Hp & Hs & Hn & _).
  assert (Hsched : schedules (startPlaying (slide nations v s)) =
    schedules s ++
    [{| tid := next_id s;
        tduration := Fin (duration - duration * ((v - 1800) / (2009 - 1800)));
        tstatus := SCHEDULED; tween := None |}]).
  { unfold startPlaying, remaining_duration. simpl. rewrite Hp, Hs, Hn.
    reflexivity. }
  split; [exact Hp|]. split; [exact Hsched|].
  intros elapsed Hr He.
  destruct (reachable_invariant s Hr) as [Hok Hcur].
  pose proof (ok_fresh s Hok) as Hfresh.
  assert (Hfin : exists p : Q,
             (if playing s then currTween (pVals s)
              else VNum (Fin ((v - 1800) / (2009 - 1800)))) = VNum (Fin p)).
  { unfold playing. destruct (existsb is_running (schedules s)) eqn:E.
    - exact (Hcur eq_refl).
    - eexists. reflexivity. }
  destruct Hfin as [p Hpv]. exists p.
  rewrite (timer_start_pVals (next_id s) elapsed _
             {| tid := next_id s;
                tduration := Fin (duration - duration * ((v - 1800) / (2009 - 1800)));
                tstatus := SCHEDULED; tween := None |}
             (reachable_has_data s Hr)); try reflexivity.
  - assert (Hlast : lastTween
                      (dispatch_interrupts
                         (schedules (startPlaying (slide nations v s)))
                         (pVals (startPlaying (slide nations v s))))
                    = VNum (Fin p)).
    { rewrite dispatch_interrupts_spec, Hsched, existsb_app.
      simpl existsb. rewrite !orb_false_r.
      change (pVals (startPlaying (slide nations v s)))
        with (pVals (slide nations v s)).
      rewrite Hp. unfold playing in Hpv.
      destruct (existsb is_running (schedules s)); exact Hpv. }
    rewrite Hlast. simpl tduration.
    destruct (tick_time_finite elapsed
                (duration - duration * ((v - 1800) / (2009 - 1800))) He)
      as [t [Ht Htv]].
    unfold tween_pVals. cbv zeta. simpl currTween. simpl lastTween.
    rewrite Ht.
    eexists. split; [exact Hpv|]. split; [reflexivity|].
    split; [reflexivity|]. rewrite Htv. reflexivity.
  - unfold find_transition. rewrite Hsched.
    apply find_new_transition; [exact Hfresh|reflexivity].
Qed.

(** *** Progress fraction and year *)

(** After a tick, [window.pVals] holds the fraction reached and its
    year; [lastTween] is as before. *)
Lemma timer_tick_consistent (s : State) (id : nat) (elapsed : Q) :
  reachable nations box_x box_width s ->
  enabled s (TimerTick id elapsed) = true ->
  exec nations box_x box_width s (TimerTick id elapsed)
  = timer_tick nations id elapsed s /\
  lastTween (pVals (timer_tick nations id elapsed s)) = lastTween (pVals s) /\
  consistent_curr (pVals (timer_tick nations id elapsed s)).
Proof.
  intros Hr Hen.
  assert (Hexec : exec nations box_x box_width s (TimerTick id elapsed)
                  = timer_tick nations id elapsed s)
    by (unfold exec; rewrite Hen; reflexivity).
  pose proof (reachable_invariant s Hr) as [Hok _].
  simpl in Hen. apply andb_prop in Hen. destruct Hen as [Hrun He].
  apply Qle_bool_iff in He.
  destruct (has_status_find _ _ _ Hrun) as [o [Hf Ho]].
  destruct (find_transition_some _ _ _ Hf) as [Hin _].
  pose proof (ok_tween s Hok) as Htw. rewrite Forall_forall in Htw.
  pose proof (ok_duration s Hok) as Hd. rewrite Forall_forall in Hd.
  destruct (Hd o Hin) as [d Hdo].
  destruct (timer_tick_running id elapsed s o sweep_tween Hf
              (is_running_status o Ho) (Htw o Hin Ho)) as (Hp & _).
  destruct (ok_last s Hok) as [p Hlast].
  destruct (tick_time_finite elapsed d He) as [t [Ht _]].
  repeat split; [exact Hexec|rewrite Hp; reflexivity|].
  rewrite Hp, Hdo, Ht. unfold consistent_curr, tween_pVals. cbv zeta.
  rewrite Hlast. simpl. rewrite year_of_fraction_finite. do 3 f_equal.
  apply Qround_comp. ring.
Qed.

(** C5, as the code has it.  A tick of the tween leaves [lastTween] as
    it was and writes the year of the fraction it has reached, which it
    keeps in [currTween]: after a tick [currYear] is
    [round(1800 + currTween * (2009 - 1800))].  The fraction is
    committed to [lastTween] when the sweep is interrupted, and a slider
    scrub sets both the year and its fraction; in those two states
    [currYear] is [round(1800 + lastTween * (2009 - 1800))]. *)
Theorem playback_consistency (s : State) (id : nat) (elapsed : Q) :
  reachable nations box_x box_width s ->
  enabled s (TimerTick id elapsed) = true ->
  let s1 := exec nations box_x box_width s (TimerTick id elapsed) in
  lastTween (pVals s1) = lastTween (pVals s) /\
  consistent_curr (pVals s1) /\
  (playing s1 = true ->
   consistent (pVals (exec nations box_x box_width s1 ClickStop))) /\
  (forall v : Z, consistent (pVals (slide nations (inject_Z v) s))).
Proof.
  intros Hr Hen. cbv zeta.
  assert (Hslide : forall v : Z,
             consistent (pVals (slide nations (inject_Z v) s))).
  { intros v. destruct (slide_frame (inject_Z v) s) as (Hp & _).
    rewrite Hp. unfold consistent. simpl lastTween. simpl currYear.
    rewrite year_of_fraction_finite. do 2 f_equal.
    rewrite <- (Qround_inject_Z v) at 1. f_equal.
    apply Qround_comp. field. }
  destruct (timer_tick_consistent s id elapsed Hr Hen) as (Hexec & Hl & Hcur).
  rewrite Hexec. repeat split.
  - exact Hl.
  - exact Hcur.
  - intros Hplay. unfold exec. simpl. rewrite dispatch_interrupts_spec.
    unfold playing in Hplay. rewrite Hplay.
    unfold consistent. simpl. exact Hcur.
  - exact Hslide.
Qed.

(** Stopping right after a tick that reached a fraction below 1 and
    starting again resumes at that fraction: a first tick of the new
    sweep at time 0 reproduces [currTween] and [currYear]. *)
Lemma resume_below_one (s : State) (id : nat) (elapsed c : Q) :
  reachable nations box_x box_width s ->
  enabled s (TimerTick id elapsed) = true ->
  let s1 := exec nations box_x box_width s (TimerTick id elapsed) in
  playing s1 = true ->
  currTween (pVals s1) = VNum (Fin c) ->
  (c < 1)%Q ->
  let s2 := run nations box_x box_width s1
                [ClickStop; ClickPlay; TimerStart (next_id s1) 0] in
  currYear (pVals s2) = currYear (pVals s1) /\
  exists c' : Q, currTween (pVals s2) = VNum (Fin c') /\ (c' == c)%Q.
Proof.
  intros Hr Hen. cbv zeta.
  destruct (timer_tick_consistent s id elapsed Hr Hen) as (Hexec & _ & Hcur).
  pose proof (reachable_exec s (TimerTick id elapsed) Hr) as Hr1.
  rewrite Hexec in *.
  set (s1 := timer_tick nations id elapsed s) in *.
  intros Hplay Hc Hlt.
  set (new := {| tid := next_id s1;
                 tduration := Fin (duration - duration * c);
                 tstatus := SCHEDULED; tween := None |}).
  assert (HB : startPlaying (stopPlaying s1) =
               {| pVals := on_interrupt (pVals s1);
                  schedules := [new];
                  next_id := S (next_id s1);
                  display := display s1;
                  armed := armed s1 |}).
  { unfold startPlaying, stopPlaying, remaining_duration. simpl.
    rewrite dispatch_interrupts_spec. unfold playing in Hplay.
    rewrite Hplay. simpl. rewrite Hc. reflexivity. }
  assert (Hrun : run nations box_x box_width s1
                   [ClickStop; ClickPlay; TimerStart (next_id s1) 0]
                 = timer_start nations (next_id s1) 0
                               (startPlaying (stopPlaying s1))).
  { simpl. unfold exec at 2 3. simpl enabled. cbv iota. simpl handle.
    unfold exec. rewrite HB. simpl.
    unfold has_status, find_transition. simpl.
    rewrite Nat.eqb_refl. reflexivity. }
  rewrite Hrun, HB.
  rewrite (timer_start_pVals (next_id s1) 0 _ new
             (reachable_has_data s Hr));
    [|unfold find_transition; simpl; rewrite Nat.eqb_refl; reflexivity
     |reflexivity].
  simpl schedules. simpl pVals. simpl tduration.
  change (lastTween (dispatch_interrupts [new] (on_interrupt (pVals s1))))
    with (currTween (pVals s1)).
  rewrite Hc.
  destruct (tick_time_finite 0 (duration - duration * c)) as [t [Ht Htv]];
    [lra|].
  assert (Hpos : Qltb 0 (duration - duration * c) = true)
    by (apply Qltb_lt; unfold duration; lra).
  rewrite Hpos in Htv.
  assert (Ht0 : (t == 0)%Q)
    by (rewrite Htv; field; unfold duration; lra).
  rewrite Ht. unfold tween_pVals. cbv zeta. simpl. split.
  - unfold consistent_curr in Hcur. rewrite Hcur, Hc.
    rewrite year_of_fraction_finite. do 3 f_equal.
    apply Qround_comp. rewrite Ht0. ring.
  - eexists. split; [reflexivity|]. rewrite Ht0. ring.
Qed.

End Sweep.

(** ** The page on the demonstration data *)

Lemma demo_init_loaded : init demo_nations = Some demo_init.
Proof. reflexivity. Defined.

Lemma demo_reachable (es : list event) :
  reachable demo_nations 800 140 (run demo_nations 800 140 demo_init es).
Proof. exists demo_init, es. split; reflexivity. Defined.

(** C3, as stated, fails: in the middle of a sweep a second [start()]
    changes the state, and once its transition starts the committed
    fraction has moved from 0 to the 1/2 that the first sweep had
    reached. *)
Lemma start_while_playing_not_noop :
  exists s : State,
    demo_run half_way = Some s /\
    playing s = true /\
    exec demo_nations 800 140 s ClickPlay <> s /\
    List.length (schedules (exec demo_nations 800 140 s ClickPlay)) = 2 /\
    lastTween (pVals s) = VNum (Fin 0) /\
    exists f : Q,
      lastTween (pVals (run demo_nations 800 140 s [ClickPlay; TimerStart 2 16]))
      = VNum (Fin f) /\ (f == 1 # 2)%Q.
Proof.
  eexists. split; [vm_compute; reflexivity|].
  split; [reflexivity|]. split.
  - intros H. apply (f_equal next_id) in H. vm_compute in H. discriminate.
  - split; [reflexivity|]. split; [reflexivity|].
    eexists. split; [vm_compute; reflexivity|reflexivity].
Qed.

Lemma one_running_sweep_demo :
  let s := run demo_nations 800 140 demo_init
               (half_way ++ [ClickPlay; TimerStart 2 16]) in
  reachable demo_nations 800 140 s /\ running_count s <= 1.
Proof.
  cbv zeta. split; [apply demo_reachable|].
  apply (one_running_sweep demo_nations 800 140), demo_reachable.
Defined.

(** C5, as stated, fails after a tween tick: half way through the first
    sweep [currYear] is 1905 while [lastTween] is still 0, whose year is
    1800. *)
Lemma tick_leaves_lastTween :
  exists s : State,
    demo_run half_way = Some s /\
    lastTween (pVals s) = VNum (Fin 0) /\
    currYear (pVals s) = VNum (Fin 1905) /\
    year_of_fraction (lastTween (pVals s)) = Fin 1800 /\
    ~ consistent (pVals s).
Proof.
  eexists. split; [vm_compute; reflexivity|].
  repeat split; try reflexivity.
  unfold consistent. vm_compute. discriminate.
Qed.

Lemma playback_consistency_demo :
  let s := run demo_nations 800 140 demo_init [ClickPlay; TimerStart 1 16] in
  let s1 := exec demo_nations 800 140 s (TimerTick 1 104500) in
  enabled s (TimerTick 1 104500) = true /\
  lastTween (pVals s1) = lastTween (pVals s) /\
  consistent_curr (pVals s1).
Proof.
  cbv zeta. split; [reflexivity|].
  destruct (playback_consistency demo_nations 800 140
              (run demo_nations 800 140 demo_init [ClickPlay; TimerStart 1 16])
              1 104500 (demo_reachable _) eq_refl) as (H1 & H2 & _).
  split; assumption.
Defined.

(** A scrub to 1850 while the first sweep is half way, followed by a
    start: the new sweep goes on from the fraction of the interrupted
    one. *)
Lemma scrub_then_start_demo :
  let s := run demo_nations 800 140 demo_init half_way in
  let s1 := slide demo_nations 1850 s in
  let s2 := timer_start demo_nations 2 16 (startPlaying s1) in
  playing s = true /\
  exists p : Q,
    lastTween (pVals s2) = VNum (Fin p) /\ (p == 1 # 2)%Q.
Proof.
  cbv zeta. split; [reflexivity|].
  destruct (scrub_then_start demo_nations 800 140 1850
              (run demo_nations 800 140 demo_init half_way))
    as (_ & _ & Hresume).
  destruct (Hresume 16%Q (demo_reachable half_way))
    as (p & c & Hp & Hl & _); [unfold Qle; simpl; lia|].
  exists p. split; [exact Hl|].
  change (playing (run demo_nations 800 140 demo_init half_way))
    with true in Hp.
  cbv iota in Hp. injection Hp as <-. reflexivity.
Defined.

(** C10, as stated, fails while a sweep is playing.  Half way through the
    first sweep the slider is dragged to 1850, which commits the fraction
    50/209; the start that follows does not resume from there: the
    interrupted sweep commits its own fraction 1/2, and the new sweep
    shows 1905. *)
Lemma slide_while_playing_overwritten :
  exists (s1 s2 : State) (f p : Q),
    demo_run (half_way ++ [Slide 1850]) = Some s1 /\
    playing s1 = true /\
    currYear (pVals s1) = VNum (Fin 1850) /\
    lastTween (pVals s1) = VNum (Fin f) /\ (f == 50 # 209)%Q /\
    s2 = run demo_nations 800 140 s1 [ClickPlay; TimerStart 2 16] /\
    enabled s1 ClickPlay = true /\
    enabled (exec demo_nations 800 140 s1 ClickPlay) (TimerStart 2 16) = true /\
    lastTween (pVals s2) = VNum (Fin p) /\ (p == 1 # 2)%Q /\
    currYear (pVals s2) = VNum (Fin 1905) /\
    label (display s2) = Fin 1905.
Proof.
  eexists. eexists. eexists. eexists.
  split; [vm_compute; reflexivity|].
  repeat split; reflexivity.
Qed.

(** C2 on the sequence play, stop, play, stop, play.  The second sweep,
    resumed at fraction 1/2, adds its own eased time to that fraction and
    is at 1.3, year 2072, when it is stopped 83.6 s later.  The third
    sweep then gets a negative duration: its first tick hands 1 to the
    tween, which shows 2281 and ends the sweep, instead of resuming from
    2072. *)
Theorem resume_after_overshoot :
  exists s1 s2 : State,
    demo_run past_the_end = Some s1 /\
    playing s1 = true /\
    currYear (pVals s1) = VNum (Fin 2072) /\
    label (display s1) = Fin 2072 /\
    s2 = run demo_nations 800 140 s1 [ClickStop; ClickPlay; TimerStart 3 16] /\
    currYear (pVals s2) = VNum (Fin 2281) /\
    label (display s2) = Fin 2281 /\
    playing s2 = false.
Proof.
  eexists. eexists. split; [vm_compute; reflexivity|].
  repeat split; reflexivity.
Qed.

(** The first resumption of the same run is exact: stopped at 1905 and
    started again, the sweep is back at 1905. *)
Lemma resume_below_one_demo :
  let s := run demo_nations 800 140 demo_init [ClickPlay; TimerStart 1 16] in
  let s1 := exec demo_nations 800 140 s (TimerTick 1 104500) in
  let s2 := run demo_nations 800 140 s1 [ClickStop; ClickPlay; TimerStart 2 0] in
  currYear (pVals s1) = VNum (Fin 1905) /\
  currYear (pVals s2) = VNum (Fin 1905).
Proof.
  cbv zeta.
  destruct (resume_below_one demo_nations 800 140
              (run demo_nations 800 140 demo_init [ClickPlay; TimerStart 1 16])
              1 104500 (104500 # 209000) (demo_reachable _) eq_refl eq_refl eq_refl)
    as [Hy _]; [reflexivity|].
  split; [reflexivity|]. exact (eq_trans Hy eq_refl).
Defined.

(** * Further properties *)

(** ** The interpolator *)

(** [interpolateValues] throws exactly on an empty series, whatever the
    year: the only failing access is [a[1]] of [values[0]]. *)
Theorem interpolateValues_throws_iff_empty (values : series) (year : num) :
  interpolateValues values year = None <-> values = [].
Proof.
  split.
  - intros H. destruct values as [|d rest]; [reflexivity|].
    destruct (interpolateValues_total (d :: rest) year) as [r Hr];
      [discriminate|]. rewrite Hr in H. discriminate.
  - intros ->. reflexivity.
Qed.

(** For the year NaN, which the [start] listener of a sweep passes on,
    every comparison of the bisector fails and the first sample's value is
    returned; the same holds for [-Infinity]. *)
Theorem interpolateValues_NaN (values : series) (first : sample) :
  nth_error values 0 = Some first ->
  interpolateValues values NaN = Some (Fin (value_of first)) /\
  interpolateValues values (Inf true) = Some (Fin (value_of first)).
Proof.
  intros Hf. split; (apply interpolateValues_first; [|exact Hf]);
    apply bisect_left_partition; try lia; intros; reflexivity.
Qed.

Lemma interpolateValues_NaN_scenario :
  interpolateValues scenario_series NaN = Some (Fin 100%Q).
Proof.
  apply (interpolateValues_NaN scenario_series (1800, 100)%Q). reflexivity.
Defined.

(** ** The frame *)

(** [interpolateData] throws exactly when some series of some nation is
    empty; whether it throws does not depend on the year. *)
Theorem interpolateData_throws_iff (nations : list nation) (year : num) :
  interpolateData nations year = None <-> has_data nations = false.
Proof.
  split.
  - intros H. apply not_true_iff_false. intros Hd.
    destruct (interpolateData_total nations year Hd) as [frame Hf].
    rewrite Hf in H. discriminate.
  - intros H. destruct (interpolateData nations year) as [frame|] eqn:E;
      [|reflexivity].
    rewrite (interpolateData_has_data nations year frame E) in H.
    discriminate.
Qed.

(** The frame has one record per nation, in the order of the nations:
    the record at an index carries the name and region of the nation at
    that index and the three interpolations of its series. *)
Theorem interpolateData_nth (nations : list nation) (year : num)
        (frame : list datum) :
  interpolateData nations year = Some frame ->
  List.length frame = List.length nations /\
  forall (i : nat) (n : nation),
    nth_error nations i = Some n ->
    exists d : datum,
      nth_error frame i = Some d /\
      key d = nation_name n /\
      color d = nation_region n /\
      interpolateValues (income_series n) year = Some (x d) /\
      interpolateValues (lifeExpectancy_series n) year = Some (y d) /\
      interpolateValues (population_series n) year = Some (radius d).
Proof.
  revert frame. induction nations as [|n0 rest IH]; intros frame H.
  - injection H as <-. split; [reflexivity|].
    intros i n Hn. destruct i; discriminate.
  - simpl in H.
    destruct (interpolateValues (income_series n0) year) as [inc|] eqn:Hi;
      [|discriminate].
    destruct (interpolateValues (population_series n0) year) as [pop|] eqn:Hp;
      [|discriminate].
    destruct (interpolateValues (lifeExpectancy_series n0) year) as [life|] eqn:Hl;
      [|discriminate].
    destruct (interpolateData rest year) as [fr|] eqn:Hr; [|discriminate].
    injection H as <-. destruct (IH fr eq_refl) as [Hlen Hnth].
    split; [simpl; rewrite Hlen; reflexivity|].
    intros i n Hn. destruct i as [|i]; simpl in Hn.
    + injection Hn as <-. eexists. split; [reflexivity|].
      repeat split; assumption.
    + exact (Hnth i n Hn).
Qed.

Lemma interpolateData_nth_demo :
  exists d : datum,
    nth_error (dots (display demo_init)) 0 = Some d /\
    key d = "Aland"%string /\ x d = Fin 100%Q.
Proof.
  destruct (interpolateData_nth demo_nations (Fin 1800%Q) (dots (display demo_init))
              eq_refl) as [_ H].
  destruct (H 0 _ eq_refl) as (d & Hd & Hk & _ & Hx & _).
  exists d. split; [exact Hd|]. split; [exact Hk|].
  simpl in Hx. injection Hx as <-. reflexivity.
Defined.

(** ** The year under the pointer *)

Lemma Qround_le (a b : Q) : (a <= b)%Q -> (Qround a <= Qround b)%Z.
Proof. intros H. unfold Qround. apply Qfloor_resp_le. lra. Qed.

Lemma yearScale_invert_clamped (box_x box_width pointer : Q) :
  (1800 <= yearScale_invert box_x box_width pointer <= 2009)%Q.
Proof.
  unfold yearScale_invert. cbv zeta.
  destruct (Qltb (box_x + box_width - 10) (box_x + 10));
    match goal with
    | |- context [if Qeq_bool ?b 0 then 0%Q else ?u] =>
        generalize (if Qeq_bool b 0 then 0%Q else u)
    end; intros t;
    destruct (Qle_bool t 0) eqn:E0; try lra;
    destruct (Qle_bool 1 t) eqn:E1; try lra;
    apply not_true_iff_false in E0, E1;
    rewrite Qle_bool_iff in E0, E1; lra.
Qed.

(** Whatever the label box and the pointer position, the inverted scale
    yields a year of the range, and so does its rounding: the scale is
    clamped. *)
Theorem yearScale_invert_range (box_x box_width pointer : Q) :
  (1800 <= yearScale_invert box_x box_width pointer <= 2009)%Q /\
  (1800 <= Qround (yearScale_invert box_x box_width pointer) <= 2009)%Z.
Proof.
  pose proof (yearScale_invert_clamped box_x box_width pointer) as [H0 H1].
  split; [split; assumption|]. split.
  - change 1800%Z with (Qround (inject_Z 1800)). apply Qround_le. exact H0.
  - change 2009%Z with (Qround (inject_Z 2009)). apply Qround_le. exact H1.
Qed.

(** For a label box wider than the 20 pixels the range leaves out, the
    year is 1800 up to the left end of the band, 2009 from its right end
    on, and linear in the pointer position in between. *)
Theorem yearScale_invert_linear (box_x box_width pointer : Q) :
  (20 < box_width)%Q ->
  let r0 := (box_x + 10)%Q in
  let r1 := (box_x + box_width - 10)%Q in
  ((pointer <= r0)%Q -> yearScale_invert box_x box_width pointer = 1800%Q) /\
  ((r1 <= pointer)%Q -> yearScale_invert box_x box_width pointer = 2009%Q) /\
  ((r0 < pointer < r1)%Q ->
   (yearScale_invert box_x box_width pointer
    == 1800 + (2009 - 1800) * ((pointer - r0) / (r1 - r0)))%Q).
Proof.
  intros Hw. cbv zeta. unfold yearScale_invert. cbv zeta.
  assert (Hflip : Qltb (box_x + box_width - 10) (box_x + 10) = false)
    by (apply Qltb_ge; lra).
  rewrite Hflip.
  rewrite (Qeq_bool_false (box_x + box_width - 10 - (box_x + 10)) 0) by lra.
  set (t := ((pointer - (box_x + 10))
             / (box_x + box_width - 10 - (box_x + 10)))%Q).
  assert (Hpos : (0 < box_x + box_width - 10 - (box_x + 10))%Q) by lra.
  repeat split.
  - intros Hp.
    assert (Ht : (t <= 0)%Q) by (apply Qle_shift_div_r; lra).
    apply Qle_bool_iff in Ht. rewrite Ht. reflexivity.
  - intros Hp.
    assert (Ht1 : (1 <= t)%Q) by (apply Qle_shift_div_l; lra).
    destruct (Qle_bool t 0) eqn:E0;
      [apply Qle_bool_iff in E0; lra|].
    apply Qle_bool_iff in Ht1. rewrite Ht1. reflexivity.
  - intros [Hp0 Hp1].
    assert (Ht0 : (0 < t)%Q) by (apply Qlt_shift_div_l; lra).
    assert (Ht1 : (t < 1)%Q) by (apply Qlt_shift_div_r; lra).
    destruct (Qle_bool t 0) eqn:E0;
      [apply Qle_bool_iff in E0; lra|].
    destruct (Qle_bool 1 t) eqn:E1;
      [apply Qle_bool_iff in E1; lra|].
    reflexivity.
Qed.

Lemma yearScale_invert_linear_demo :
  (yearScale_invert 800 140 870 == 1800 + (2009 - 1800) * (1 # 2))%Q.
Proof.
  destruct (yearScale_invert_linear 800 140 870) as (_ & _ & H);
    [reflexivity|].
  rewrite H; [reflexivity|split; reflexivity].
Defined.

(** ** The drawing order *)

(** On dots with finite populations [order] is a consistent comparator
    for [sort]: it is negative exactly when the first dot has the larger
    population, never negative both ways round, and transitive; larger
    dots come first and are drawn below smaller ones. *)
Theorem order_descending (a b c : datum) (ra rb rc : Q) :
  radius a = Fin ra -> radius b = Fin rb -> radius c = Fin rc ->
  (lt (order a b) (Fin 0) = true <-> (rb < ra)%Q) /\
  (lt (order a b) (Fin 0) = true -> lt (order b a) (Fin 0) = false) /\
  (lt (order a b) (Fin 0) = true -> lt (order b c) (Fin 0) = true ->
   lt (order a c) (Fin 0) = true).
Proof.
  intros Ha Hb Hc. unfold order. rewrite Ha, Hb, Hc. simpl.
  split; [|split].
  - rewrite Qltb_lt. split; intros H; lra.
  - rewrite Qltb_lt, Qltb_ge. intros H. lra.
  - rewrite !Qltb_lt. intros H1 H2. lra.
Qed.

Lemma order_descending_demo :
  lt (order {| name := "A"; region := "R"; income := Fin 1;
               population := Fin 7000; lifeExpectancy := Fin 40 |}
            {| name := "B"; region := "R"; income := Fin 1;
               population := Fin 5000; lifeExpectancy := Fin 40 |})
     (Fin 0) = true.
Proof.
  refine (proj2 (proj1 (order_descending
           {| name := "A"; region := "R"; income := Fin 1;
              population := Fin 7000; lifeExpectancy := Fin 40 |}
           {| name := "B"; region := "R"; income := Fin 1;
              population := Fin 5000; lifeExpectancy := Fin 40 |}
           {| name := "B"; region := "R"; income := Fin 1;
              population := Fin 5000; lifeExpectancy := Fin 40 |}
           7000 5000 5000 eq_refl eq_refl eq_refl)) _).
  reflexivity.
Defined.

(** ** The gate and the playback controls *)

Section Controls.

Variable nations : list nation.
Variables box_x box_width : Q.

Lemma trimAlignValue_in_range (z : Z) :
  (1800 <= z <= 2009)%Z ->
  trimAlignValue (Fin (inject_Z z)) = Fin (inject_Z z).
Proof.
  intros [H0 H1]. unfold trimAlignValue, le.
  destruct (Qle_bool (inject_Z z) 1800) eqn:E0.
  - apply Qle_bool_iff in E0. unfold Qle in E0. simpl in E0.
    replace z with 1800%Z by lia. reflexivity.
  - destruct (Qle_bool 2009 (inject_Z z)) eqn:E1; [|reflexivity].
    apply Qle_bool_iff in E1. unfold Qle in E1. simpl in E1.
    replace z with 2009%Z by lia. reflexivity.
Qed.

(** A pointer movement over the armed overlay shows an integer year of
    the range 1800..2009 in the label, in the slider and in its handle. *)
Theorem mousemove_shows_year_in_range (pointer : Q) (s : State) :
  has_data nations = true ->
  armed s = true ->
  let s' := exec nations box_x box_width s (MouseMove pointer) in
  exists z : Z,
    (1800 <= z <= 2009)%Z /\
    label (display s') = Fin (inject_Z z) /\
    slider_value (display s') = Fin (inject_Z z) /\
    handle_text (display s') = Fin (inject_Z z).
Proof.
  intros Hd Ha. cbv zeta. unfold exec, handle, enabled. rewrite Ha.
  unfold mousemove.
  destruct (displayYear_returns nations
              (Fin (yearScale_invert box_x box_width pointer)) s Hd)
    as [frame [_ ->]].
  pose proof (yearScale_invert_clamped box_x box_width pointer) as [H0 H1].
  exists (Qround (yearScale_invert box_x box_width pointer)).
  assert (Hz : (1800 <= Qround (yearScale_invert box_x box_width pointer)
                <= 2009)%Z).
  { split.
    - change 1800%Z with (Qround (inject_Z 1800)).
      apply Qround_le. exact H0.
    - change 2009%Z with (Qround (inject_Z 2009)).
      apply Qround_le. exact H1. }
  split; [exact Hz|]. simpl.
  rewrite (trimAlignValue_in_range _ Hz). repeat split.
Qed.


Lemma timer_tick_armed (id : nat) (elapsed : Q) (s : State) :
  armed s = true -> armed (timer_tick nations id elapsed s) = true.
Proof.
  intros Ha. unfold timer_tick.
  destruct (find_transition id s) as [[i d [|] [year|]]|]; auto.
  destruct (tween_call_frame nations year (VNum (tick_time elapsed d)) s)
    as (_ & _ & _ & Harm).
  destruct (tween_call nations year (VNum (tick_time elapsed d)) s) as [s'|s'];
    simpl in Harm; destruct (negb (lt (Fin elapsed) d)); simpl;
    rewrite ?Harm; auto.
Qed.

Lemma timer_start_armed (id : nat) (elapsed : Q) (s : State) :
  armed s = true -> armed (timer_start nations id elapsed s) = true.
Proof.
  intros Ha. unfold timer_start. cbv zeta.
  destruct (tween_call_frame nations (tweenYear (pVals (preempt id s))) VUndef
              (preempt id s)) as (_ & _ & _ & Harm).
  destruct (tween_call nations (tweenYear (pVals (preempt id s))) VUndef
              (preempt id s)) as [s2|s2];
    cbv beta iota delta [state_of] in Harm.
  - apply timer_tick_armed. simpl. rewrite Harm. exact Ha.
  - simpl. rewrite Harm. exact Ha.
Qed.

(** Once the overlay is armed it stays armed: no listener removes the
    pointer listeners again, and neither starting nor running a sweep
    does. *)
Theorem gate_stays_armed (s : State) (e : event) :
  armed s = true -> armed (exec nations box_x box_width s e) = true.
Proof.
  intros Ha. unfold exec. destruct (enabled s e); [|exact Ha].
  destruct e as [| |id el|id el| | |p|v]; simpl.
  - exact Ha.
  - exact Ha.
  - apply timer_start_armed, Ha.
  - apply timer_tick_armed, Ha.
  - rewrite Ha. exact Ha.
  - rewrite Ha. exact Ha.
  - rewrite Ha. unfold mousemove.
    destruct (displayYear_frame nations
                (Fin (yearScale_invert box_x box_width p)) s)
      as (_ & _ & _ & H). rewrite H. exact Ha.
  - destruct (slide_frame nations (inject_Z v) s) as (_ & _ & _ & H).
    rewrite H. exact Ha.
Qed.

(** [stop()] ends every transition, scheduled or running, so that no
    timer of a sweep can fire afterwards; the fraction reached is
    committed to [lastTween] only if a sweep was running, the display is
    left as it is, and a second [stop()] changes nothing. *)
Theorem stopPlaying_cancels (s : State) :
  let s' := exec nations box_x box_width s ClickStop in
  (forall id elapsed,
      enabled s' (TimerStart id elapsed) = false /\
      enabled s' (TimerTick id elapsed) = false) /\
  pVals s' = (if playing s then on_interrupt (pVals s) else pVals s) /\
  display s' = display s /\
  exec nations box_x box_width s' ClickStop = s'.
Proof.
  cbv zeta. unfold exec. simpl. repeat split.
  - unfold stopPlaying. rewrite dispatch_interrupts_spec. reflexivity.
Qed.

(** *** Ticks *)

(** One tick of the running sweep of a reachable state, in full. *)
Lemma tick_effect (s : State) (id : nat) (elapsed : Q) :
  reachable nations box_x box_width s ->
  enabled s (TimerTick id elapsed) = true ->
  exists (o : transition) (d p t : Q) (frame : list datum),
    find_transition id s = Some o /\ is_running o = true /\
    tduration o = Fin d /\
    lastTween (pVals s) = VNum (Fin p) /\
    (t == if Qltb elapsed d then elapsed / d else 1)%Q /\
    (0 <= elapsed)%Q /\
    let year := (1800 + (2009 - 1800) * (t + p))%Q in
    let s' := exec nations box_x box_width s (TimerTick id elapsed) in
    pVals s' = {| lastTween := VNum (Fin p);
                  currTween := VNum (Fin (t + p));
                  currYear := VNum (Fin (inject_Z (Qround year))) |} /\
    schedules s' = (if Qltb elapsed d then schedules s
                    else filter (fun o => negb (tid o =? id)) (schedules s)) /\
    display s' = {| dots := frame;
                    label := Fin (inject_Z (Qround year));
                    label_active := label_active (display s);
                    slider_value := trimAlignValue (Fin (inject_Z (Qround year)));
                    handle_text := trimAlignValue (Fin (inject_Z (Qround year))) |} /\
    armed s' = (if Qltb elapsed d then armed s else true) /\
    next_id s' = next_id s.
Proof.
  intros Hr Hen.
  pose proof (reachable_invariant nations box_x box_width s Hr) as [Hok _].
  pose proof (reachable_has_data nations box_x box_width s Hr) as Hdata.
  unfold exec. rewrite Hen. simpl handle.
  simpl in Hen. apply andb_prop in Hen. destruct Hen as [Hrun He].
  apply Qle_bool_iff in He.
  destruct (has_status_find _ _ _ Hrun) as [o [Hf Ho]].
  destruct (find_transition_some _ _ _ Hf) as [Hin _].
  pose proof (ok_tween s Hok) as Htw. rewrite Forall_forall in Htw.
  pose proof (ok_duration s Hok) as Hd. rewrite Forall_forall in Hd.
  destruct (Hd o Hin) as [d Hdo].
  destruct (ok_last s Hok) as [p Hlast].
  destruct (tick_time_finite elapsed d He) as [t [Ht Htv]].
  pose proof (Htw o Hin Ho) as Hyear.
  pose proof (is_running_status o Ho) as Hst.
  destruct (displayYear_returns nations
              (Fin (1800 + (2009 - 1800) * (t + p)))
              (with_pVals (tween_pVals sweep_tween (VNum (Fin t)) (pVals s)) s)
              Hdata) as [frame [_ Hdisp]].
  exists o, d, p, t, frame.
  repeat (split; [assumption|]). cbv zeta.
  unfold timer_tick. rewrite Hf.
  destruct o as [i dd st tw]. simpl in Hdo, Hyear, Hst. subst dd st tw.
  cbv beta iota. rewrite Ht.
  unfold tween_call. cbv zeta. rewrite Hlast.
  change (to_num (VNum (Fin t)) + to_num (VNum (Fin p)))%js with (Fin (t + p)).
  change (interpolate_at sweep_tween (Fin (t + p)))
    with (Fin (1800 + (2009 - 1800) * (t + p))).
  rewrite Hdisp.
  change (lt (Fin elapsed) (Fin d)) with (Qltb elapsed d).
  unfold tween_pVals. cbv zeta. rewrite Hlast.
  destruct (Qltb elapsed d); simpl; repeat split.
Qed.

Lemma find_removed (id : nat) (l : list transition) :
  find (fun o => tid o =? id) (filter (fun o => negb (tid o =? id)) l) = None.
Proof.
  destruct (find _ _) as [o|] eqn:E; [|reflexivity].
  apply find_some in E. destruct E as [Hin Hid].
  apply filter_In in Hin. destruct Hin as [_ Hne].
  rewrite Hid in Hne. discriminate.
Qed.

Lemma only_running (l : list transition) (o o' : transition) :
  List.length (filter is_running l) <= 1 ->
  In o l -> is_running o = true ->
  In o' l -> is_running o' = true -> o' = o.
Proof.
  intros Hlen Hin Hr Hin' Hr'.
  assert (H1 : In o (filter is_running l)) by (apply filter_In; auto).
  assert (H2 : In o' (filter is_running l)) by (apply filter_In; auto).
  destruct (filter is_running l) as [|a [|b rest]]; simpl in *;
    [contradiction| |lia].
  destruct H1 as [<-|[]]. destruct H2 as [<-|[]]. reflexivity.
Qed.

Lemma tick_time_bounds (elapsed d t : Q) :
  (0 <= elapsed)%Q ->
  (t == if Qltb elapsed d then elapsed / d else 1)%Q ->
  (0 <= t <= 1)%Q.
Proof.
  intros He Ht. destruct (Qltb elapsed d) eqn:E; [|lra].
  apply Qltb_lt in E. rewrite Ht. split.
  - apply Qle_shift_div_l; lra.
  - apply Qle_shift_div_r; lra.
Qed.



(** The label and [currYear] agree after a tick, and the slider and its
    handle show that year clamped to the slider's range. *)
Theorem tick_label_is_currYear (s : State) (id : nat) (elapsed : Q) :
  reachable nations box_x box_width s ->
  enabled s (TimerTick id elapsed) = true ->
  let s' := exec nations box_x box_width s (TimerTick id elapsed) in
  VNum (label (display s')) = currYear (pVals s') /\
  slider_value (display s') = trimAlignValue (label (display s')) /\
  handle_text (display s') = slider_value (display s').
Proof.
  intros Hr Hen.
  destruct (tick_effect s id elapsed Hr Hen)
    as (o & d & p & t & frame & _ & _ & _ & _ & _ & _ & H).
  cbv zeta in H. destruct H as (Hp & _ & Hdisp & _). cbv zeta.
  rewrite Hp, Hdisp. simpl. repeat split.
Qed.

(** Ticks of a sweep never go back: a later tick shows a fraction and a
    year that are not smaller, also when the earlier tick was the last
    one of the sweep. *)
Theorem ticks_advance (s : State) (id : nat) (elapsed1 elapsed2 : Q) :
  reachable nations box_x box_width s ->
  enabled s (TimerTick id elapsed1) = true ->
  (elapsed1 <= elapsed2)%Q ->
  let s1 := exec nations box_x box_width s (TimerTick id elapsed1) in
  let s2 := exec nations box_x box_width s1 (TimerTick id elapsed2) in
  exists (c1 c2 : Q) (z1 z2 : Z),
    currTween (pVals s1) = VNum (Fin c1) /\
    currTween (pVals s2) = VNum (Fin c2) /\ (c1 <= c2)%Q /\
    currYear (pVals s1) = VNum (Fin (inject_Z z1)) /\
    currYear (pVals s2) = VNum (Fin (inject_Z z2)) /\ (z1 <= z2)%Z.
Proof.
  intros Hr Hen Hle. cbv zeta.
  destruct (tick_effect s id elapsed1 Hr Hen)
    as (o & d & p & t1 & frame1 & Hf & _ & Hd & Hlast & Ht1 & He1 & H).
  cbv zeta in H. destruct H as (Hp1 & Hs1 & _).
  set (s1 := exec nations box_x box_width s (TimerTick id elapsed1)) in *.
  destruct (enabled s1 (TimerTick id elapsed2)) eqn:Hen2.
  - pose proof (reachable_exec nations box_x box_width s
                  (TimerTick id elapsed1) Hr) as Hr1.
    fold s1 in Hr1.
    destruct (tick_effect s1 id elapsed2 Hr1 Hen2)
      as (o2 & d2 & p2 & t2 & frame2 & Hf2 & _ & Hd2 & Hlast2 & Ht2 & He2 & H).
    cbv zeta in H. destruct H as (Hp2 & _).
    rewrite Hp1 in Hlast2. simpl in Hlast2. injection Hlast2 as <-.
    assert (Hnotlast : Qltb elapsed1 d = true).
    { destruct (Qltb elapsed1 d); [reflexivity|].
      unfold find_transition in Hf2. rewrite Hs1, find_removed in Hf2.
      discriminate. }
    rewrite Hnotlast in *.
    unfold find_transition in Hf, Hf2. rewrite Hs1, Hf in Hf2.
    injection Hf2 as <-. rewrite Hd in Hd2. injection Hd2 as <-.
    apply Qltb_lt in Hnotlast.
    assert (Ht : (t1 <= t2)%Q).
    { rewrite Ht1, Ht2. destruct (Qltb elapsed2 d) eqn:E2.
      - apply Qmult_le_compat_r; [exact Hle|].
        apply Qinv_le_0_compat. lra.
      - apply Qle_shift_div_r; lra. }
    exists (t1 + p)%Q, (t2 + p)%Q,
      (Qround (1800 + (2009 - 1800) * (t1 + p))),
      (Qround (1800 + (2009 - 1800) * (t2 + p))).
    rewrite Hp1, Hp2. simpl. repeat split; try lra.
    apply Qround_le. lra.
  - assert (Hs2 : exec nations box_x box_width s1 (TimerTick id elapsed2) = s1)
      by (unfold exec; rewrite Hen2; reflexivity).
    rewrite Hs2.
    exists (t1 + p)%Q, (t1 + p)%Q,
      (Qround (1800 + (2009 - 1800) * (t1 + p))),
      (Qround (1800 + (2009 - 1800) * (t1 + p))).
    rewrite Hp1. simpl. repeat split; try lra; lia.
Qed.

(** *** Starts *)

(** A tick of a running sweep from 1800, without the assumption that the
    state is reachable, for use in the middle of a start. *)
Lemma tick_effect_at (s : State) (id : nat) (elapsed d p : Q) (o : transition) :
  has_data nations = true ->
  find_transition id s = Some o ->
  tstatus o = RUNNING -> tween o = Some sweep_tween -> tduration o = Fin d ->
  lastTween (pVals s) = VNum (Fin p) ->
  (0 <= elapsed)%Q ->
  exists t : Q,
    (t == if Qltb elapsed d then elapsed / d else 1)%Q /\
    let year := (1800 + (2009 - 1800) * (t + p))%Q in
    let s' := timer_tick nations id elapsed s in
    pVals s' = {| lastTween := VNum (Fin p);
                  currTween := VNum (Fin (t + p));
                  currYear := VNum (Fin (inject_Z (Qround year))) |} /\
    schedules s' = (if Qltb elapsed d then schedules s
                    else filter (fun o => negb (tid o =? id)) (schedules s)) /\
    label (display s') = Fin (inject_Z (Qround year)) /\
    armed s' = (if Qltb elapsed d then armed s else true).
Proof.
  intros Hdata Hf Hst Hyear Hdo Hlast He.
  destruct (tick_time_finite elapsed d He) as [t [Ht Htv]].
  destruct (displayYear_returns nations
              (Fin (1800 + (2009 - 1800) * (t + p)))
              (with_pVals (tween_pVals sweep_tween (VNum (Fin t)) (pVals s)) s)
              Hdata) as [frame [_ Hdisp]].
  exists t. split; [exact Htv|]. cbv zeta.
  unfold timer_tick. rewrite Hf.
  destruct o as [i dd st tw]. simpl in Hdo, Hyear, Hst. subst dd st tw.
  cbv beta iota. rewrite Ht.
  unfold tween_call. cbv zeta. rewrite Hlast.
  change (to_num (VNum (Fin t)) + to_num (VNum (Fin p)))%js with (Fin (t + p)).
  change (interpolate_at sweep_tween (Fin (t + p)))
    with (Fin (1800 + (2009 - 1800) * (t + p))).
  rewrite Hdisp.
  change (lt (Fin elapsed) (Fin d)) with (Qltb elapsed d).
  unfold tween_pVals. cbv zeta. rewrite Hlast.
  destruct (Qltb elapsed d); simpl; repeat split.
Qed.

(** The start of a scheduled sweep of a reachable state, in full: the
    fraction of a running sweep is committed first, then the new sweep
    ticks once. *)
Lemma start_effect (s : State) (id : nat) (elapsed : Q) :
  reachable nations box_x box_width s ->
  enabled s (TimerStart id elapsed) = true ->
  exists (o : transition) (d p t : Q),
    find_transition id s = Some o /\ tduration o = Fin d /\
    (if playing s then currTween (pVals s) else lastTween (pVals s))
    = VNum (Fin p) /\
    (t == if Qltb elapsed d then elapsed / d else 1)%Q /\
    (0 <= elapsed)%Q /\
    let year := (1800 + (2009 - 1800) * (t + p))%Q in
    let s' := exec nations box_x box_width s (TimerStart id elapsed) in
    pVals s' = {| lastTween := VNum (Fin p);
                  currTween := VNum (Fin (t + p));
                  currYear := VNum (Fin (inject_Z (Qround year))) |} /\
    (Qltb elapsed d = false -> find_transition id s' = None) /\
    label (display s') = Fin (inject_Z (Qround year)) /\
    armed s' = (if Qltb elapsed d then armed s else true).
Proof.
  intros Hr Hen.
  pose proof (reachable_invariant nations box_x box_width s Hr) as [Hok Hcur].
  pose proof (reachable_has_data nations box_x box_width s Hr) as Hdata.
  unfold exec. rewrite Hen. simpl handle.
  simpl in Hen. apply andb_prop in Hen. destruct Hen as [Hsch He].
  apply Qle_bool_iff in He.
  destruct (has_status_find _ _ _ Hsch) as [o [Hf Ho]].
  destruct (find_transition_some _ _ _ Hf) as [Hin Hid].
  assert (Hst : tstatus o = SCHEDULED)
    by (unfold is_scheduled in Ho; destruct (tstatus o);
        [reflexivity|discriminate]).
  pose proof (ok_duration s Hok) as Hd. rewrite Forall_forall in Hd.
  destruct (Hd o Hin) as [d Hdo].
  assert (Hfin : finite (if playing s then currTween (pVals s)
                         else lastTween (pVals s))).
  { unfold playing. destruct (existsb is_running (schedules s)) eqn:E;
      [apply Hcur; reflexivity|exact (ok_last s Hok)]. }
  destruct Hfin as [p Hp].
  assert (Hf1 : find_transition id (preempt id s) = Some o).
  { unfold find_transition. simpl. apply find_filter; [exact Hf|].
    unfold is_running. rewrite Hst, Hid, Nat.ltb_irrefl. reflexivity. }
  assert (Hp1 : lastTween (pVals (preempt id s)) = VNum (Fin p)).
  { simpl. rewrite dispatch_interrupts_spec. unfold playing in Hp.
    destruct (existsb is_running (schedules s)); exact Hp. }
  unfold timer_start. cbv zeta.
  set (s1 := preempt id s) in *.
  destruct (tween_call_returns nations (tweenYear (pVals s1)) VUndef s1 Hdata)
    as [dsp ->].
  destruct (tweenYear_after_start (tweenYear (pVals s1)) (pVals s1))
    as [Hpn Htw].
  set (s2 := with_display dsp _).
  change (pVals s2) with (tween_pVals (tweenYear (pVals s1)) VUndef (pVals s1)).
  rewrite Htw.
  set (s3 := set_running id sweep_tween s2).
  destruct (tick_effect_at s3 id elapsed d p
              {| tid := tid o; tduration := tduration o;
                 tstatus := RUNNING; tween := Some sweep_tween |})
    as [t [Ht H]]; try reflexivity; try assumption.
  - unfold s3, find_transition, set_running. simpl.
    rewrite (find_map_tid _ id _ o);
      [|intros o'; destruct (tid o' =? id); reflexivity|exact Hf1].
    rewrite Hid, Nat.eqb_refl. reflexivity.
  - cbv zeta in H. destruct H as (Hpv & Hs & Hl & Ha).
    exists o, d, p, t. repeat (split; [assumption|]). cbv zeta.
    split; [|split; [exact Hl|exact Ha]].
    intros Hend. unfold find_transition. rewrite Hs, Hend.
    apply find_removed.
Qed.

(** A sweep whose first tick comes when its duration is used up, which is
    always the case when the duration is zero or negative, neither hangs
    nor throws: it calls the tween once with 1 and ends.  The fraction
    shown is [1 + lastTween], not 1. *)
Theorem spent_sweep_ends_at_once (s : State) (id : nat) (elapsed d : Q)
        (o : transition) :
  reachable nations box_x box_width s ->
  enabled s (TimerStart id elapsed) = true ->
  find_transition id s = Some o ->
  tduration o = Fin d ->
  (d <= elapsed)%Q ->
  let s' := exec nations box_x box_width s (TimerStart id elapsed) in
  playing s' = false /\
  find_transition id s' = None /\
  armed s' = true /\
  exists p c : Q,
    lastTween (pVals s') = VNum (Fin p) /\
    currTween (pVals s') = VNum (Fin c) /\ (c == 1 + p)%Q /\
    label (display s')
    = Fin (inject_Z (Qround (2009 + (2009 - 1800) * p))).
Proof.
  intros Hr Hen Hf Hd Hle.
  destruct (start_effect s id elapsed Hr Hen)
    as (o' & d' & p & t & Hf' & Hd' & _ & Ht & He & H).
  cbv zeta in H. destruct H as (Hp & Hgone & Hl & Harm).
  rewrite Hf in Hf'. injection Hf' as <-.
  rewrite Hd in Hd'. injection Hd' as <-.
  assert (Hend : Qltb elapsed d = false) by (apply Qltb_ge; exact Hle).
  rewrite Hend in *. cbv zeta.
  pose proof (Hgone eq_refl) as Hnone.
  repeat split; try assumption.
  - unfold playing. apply not_true_iff_false. intros Hex.
    apply existsb_exists in Hex. destruct Hex as [o' [Hin' Hr']].
    assert (Hid : tid o' = id).
    { apply (timer_start_only_self nations id elapsed s o'); [|exact Hr'].
      unfold exec in Hin'. rewrite Hen in Hin'. exact Hin'. }
    unfold find_transition in Hnone.
    apply (find_none _ _ Hnone) in Hin'.
    rewrite Hid, Nat.eqb_refl in Hin'. discriminate.
  - exists p, (t + p)%Q. rewrite Hp. simpl. repeat split.
    + rewrite Ht. reflexivity.
    + rewrite Hl. do 2 f_equal. apply Qround_comp. rewrite Ht. ring.
Qed.

(** A sweep that starts while another is running takes over where that
    one was: the interrupted fraction is committed to [lastTween], and the
    first tick of the new sweep shows a fraction between it and 1 above
    it.  When no sweep was running [lastTween] is kept. *)
Theorem start_takes_over (s : State) (id : nat) (elapsed : Q) :
  reachable nations box_x box_width s ->
  enabled s (TimerStart id elapsed) = true ->
  let s' := exec nations box_x box_width s (TimerStart id elapsed) in
  lastTween (pVals s')
  = (if playing s then currTween (pVals s) else lastTween (pVals s)) /\
  exists p c : Q,
    lastTween (pVals s') = VNum (Fin p) /\
    currTween (pVals s') = VNum (Fin c) /\
    (p <= c <= p + 1)%Q.
Proof.
  intros Hr Hen.
  destruct (start_effect s id elapsed Hr Hen)
    as (o & d & p & t & _ & _ & Hfrom & Ht & He & H).
  cbv zeta in H. destruct H as (Hp & _). cbv zeta.
  destruct (tick_time_bounds elapsed d t He Ht) as [Ht0 Ht1].
  rewrite Hp. simpl. split; [symmetry; exact Hfrom|].
  exists p, (t + p)%Q. repeat split; lra.
Qed.

(** In every state the page can reach the committed fraction and the
    durations are finite numbers, and a running sweep tweens from 1800 to
    2009 and has a finite [currTween]: the NaN that the [start] listener
    writes is overwritten by the first tick, and the year recorded in
    [currYear] never becomes the start of a sweep. *)
Theorem reachable_sweeps (s : State) :
  reachable nations box_x box_width s ->
  finite (lastTween (pVals s)) /\
  (playing s = true -> finite (currTween (pVals s))) /\
  forall o : transition,
    In o (schedules s) ->
    (exists d : Q, tduration o = Fin d) /\
    (is_running o = true ->
     tween o = Some {| from_a := Fin 1800; delta_b := Fin (2009 - 1800) |}).
Proof.
  intros Hr.
  destruct (reachable_invariant nations box_x box_width s Hr)
    as [[_ _ Htw Hd Hlast] Hcur].
  rewrite Forall_forall in Htw, Hd.
  split; [exact Hlast|]. split; [exact Hcur|].
  intros o Hin. split; [exact (Hd o Hin)|exact (Htw o Hin)].
Qed.

(** *** The slider and the year of a tick *)

(** A slider scrub to an integer of the range shows that year
    everywhere: label, slider, handle and [currYear] agree, and the dots
    show the frame of that year. *)
Theorem slide_shows_value (v : Z) (s : State) :
  has_data nations = true ->
  enabled s (Slide v) = true ->
  let s' := exec nations box_x box_width s (Slide v) in
  label (display s') = Fin (inject_Z v) /\
  slider_value (display s') = Fin (inject_Z v) /\
  handle_text (display s') = Fin (inject_Z v) /\
  currYear (pVals s') = VNum (Fin (inject_Z v)) /\
  interpolateData nations (Fin (inject_Z v)) = Some (dots (display s')).
Proof.
  intros Hd Hen. cbv zeta. unfold exec. rewrite Hen. simpl handle.
  simpl in Hen. apply andb_prop in Hen. destruct Hen as [H0 H1].
  apply Z.leb_le in H0, H1.
  destruct (slide_frame nations (inject_Z v) s) as (Hp & _).
  split; [|split; [|split; [|split; [rewrite Hp; reflexivity|]]]];
    unfold slide; cbv zeta;
    match goal with |- context [displayYear nations ?yr ?s1] =>
      destruct (displayYear_returns nations yr s1 Hd) as [frame [Hf ->]] end;
    simpl; rewrite ?Qround_inject_Z, ?trimAlignValue_in_range by lia;
    try reflexivity.
  exact Hf.
Qed.

(** A tick before the end of a sweep shows the year of the fraction
    [lastTween + elapsed / duration] on the range from 1800: one year per
    second for a sweep created at [lastTween = 0]. *)
Theorem tick_shows_year (s : State) (id : nat) (elapsed d p : Q)
        (o : transition) :
  reachable nations box_x box_width s ->
  enabled s (TimerTick id elapsed) = true ->
  find_transition id s = Some o ->
  tduration o = Fin d ->
  lastTween (pVals s) = VNum (Fin p) ->
  (elapsed < d)%Q ->
  let s' := exec nations box_x box_width s (TimerTick id elapsed) in
  playing s' = true /\
  exists c : Q,
    currTween (pVals s') = VNum (Fin c) /\ (c == p + elapsed / d)%Q /\
    label (display s')
    = Fin (inject_Z (Qround (1800 + (2009 - 1800) * (p + elapsed / d)))).
Proof.
  intros Hr Hen Hf Hd Hlast Hlt.
  destruct (tick_effect s id elapsed Hr Hen)
    as (o' & d' & p' & t & frame & Hf' & Hrun & Hd' & Hlast' & Ht & He & H).
  cbv zeta in H. destruct H as (Hp & Hs & Hdisp & _).
  rewrite Hf in Hf'. injection Hf' as <-.
  rewrite Hd in Hd'. injection Hd' as <-.
  rewrite Hlast in Hlast'. injection Hlast' as <-.
  assert (Hnot : Qltb elapsed d = true) by (apply Qltb_lt; exact Hlt).
  rewrite Hnot in *. cbv zeta.
  destruct (find_transition_some _ _ _ Hf) as [Hin _].
  split.
  - unfold playing. rewrite Hs. apply existsb_exists. exists o. auto.
  - exists (t + p)%Q. rewrite Hp, Hdisp. simpl.
    split; [reflexivity|]. split; [rewrite Ht; ring|].
    do 2 f_equal. apply Qround_comp. rewrite Ht. ring.
Qed.

End Controls.

(** ** On the demonstration data *)

Lemma mousemove_shows_year_in_range_demo :
  exists z : Z,
    (1800 <= z <= 2009)%Z /\
    label (display (run demo_nations 800 140 demo_init
                        [MouseOver; MouseMove 5000])) = Fin (inject_Z z).
Proof.
  destruct (mousemove_shows_year_in_range demo_nations 800 140 5000
              (exec demo_nations 800 140 demo_init MouseOver)
              eq_refl eq_refl) as (z & Hz & Hl & _).
  exists z. split; [exact Hz|exact Hl].
Defined.

Lemma gate_stays_armed_demo :
  armed (run demo_nations 800 140 demo_init [MouseOver; ClickPlay; TimerStart 1 16])
  = true.
Proof.
  apply (gate_stays_armed demo_nations 800 140
           (run demo_nations 800 140 demo_init [MouseOver; ClickPlay])
           (TimerStart 1 16)).
  reflexivity.
Defined.



Lemma tick_label_is_currYear_demo :
  let s := run demo_nations 800 140 demo_init
               (past_the_end ++ [TimerTick 2 90000]) in
  VNum (label (display s)) = currYear (pVals s) /\
  slider_value (display s) = trimAlignValue (label (display s)).
Proof.
  cbv zeta.
  destruct (tick_label_is_currYear demo_nations 800 140
              (run demo_nations 800 140 demo_init past_the_end)
              2 90000 (demo_reachable _) eq_refl) as (H1 & H2 & _).
  split; [exact H1|exact H2].
Defined.

Lemma ticks_advance_demo :
  let s := run demo_nations 800 140 demo_init [ClickPlay; TimerStart 1 16] in
  let s1 := exec demo_nations 800 140 s (TimerTick 1 1000) in
  let s2 := exec demo_nations 800 140 s1 (TimerTick 1 2000) in
  exists z1 z2 : Z,
    currYear (pVals s1) = VNum (Fin (inject_Z z1)) /\
    currYear (pVals s2) = VNum (Fin (inject_Z z2)) /\ (z1 <= z2)%Z.
Proof.
  cbv zeta.
  destruct (ticks_advance demo_nations 800 140
              (run demo_nations 800 140 demo_init [ClickPlay; TimerStart 1 16])
              1 1000 2000 (demo_reachable _) eq_refl)
    as (c1 & c2 & z1 & z2 & _ & _ & _ & H1 & H2 & Hz).
  - unfold Qle; simpl; lia.
  - exists z1, z2. split; [exact H1|]. split; [exact H2|exact Hz].
Defined.

Lemma spent_sweep_ends_at_once_demo :
  let s := run demo_nations 800 140 demo_init [Slide 2009; ClickPlay] in
  let s' := exec demo_nations 800 140 s (TimerStart 1 16) in
  playing s' = false /\ armed s' = true /\ label (display s') = Fin 2218.
Proof.
  cbv zeta.
  destruct (spent_sweep_ends_at_once demo_nations 800 140
              (run demo_nations 800 140 demo_init [Slide 2009; ClickPlay])
              1 16 _ _ (demo_reachable _) eq_refl eq_refl eq_refl)
    as (Hplay & _ & Harm & p & c & Hp & _ & _ & Hl).
  - unfold Qle; vm_compute; discriminate.
  - split; [exact Hplay|]. split; [exact Harm|].
    vm_compute in Hp. injection Hp as <-. rewrite Hl. reflexivity.
Defined.

Lemma start_takes_over_demo :
  let s := run demo_nations 800 140 demo_init (half_way ++ [ClickPlay]) in
  let s' := exec demo_nations 800 140 s (TimerStart 2 16) in
  playing s = true /\ lastTween (pVals s') = currTween (pVals s).
Proof.
  cbv zeta.
  destruct (start_takes_over demo_nations 800 140
              (run demo_nations 800 140 demo_init (half_way ++ [ClickPlay]))
              2 16 (demo_reachable _) eq_refl) as (H & _).
  split; [reflexivity|exact H].
Defined.

Lemma reachable_sweeps_demo :
  finite (lastTween (pVals (run demo_nations 800 140 demo_init past_the_end))).
Proof.
  exact (proj1 (reachable_sweeps demo_nations 800 140 _
                  (demo_reachable past_the_end))).
Defined.

Lemma slide_shows_value_demo :
  label (display (exec demo_nations 800 140 demo_init (Slide 1950)))
  = Fin 1950.
Proof.
  apply (slide_shows_value demo_nations 800 140 1950 demo_init);
    reflexivity.
Defined.

Lemma tick_shows_year_demo :
  let s := run demo_nations 800 140 demo_init [ClickPlay; TimerStart 1 16] in
  label (display (exec demo_nations 800 140 s (TimerTick 1 25400)))
  = Fin 1825.
Proof.
  cbv zeta.
  destruct (tick_shows_year demo_nations 800 140
              (run demo_nations 800 140 demo_init [ClickPlay; TimerStart 1 16])
              1 25400 209000 0 _ (demo_reachable _) eq_refl eq_refl eq_refl
              eq_refl)
    as (_ & c & _ & _ & Hl).
  - reflexivity.
  - rewrite Hl. reflexivity.
Defined.

(** ** The duration after a scrub, in doubles *)

Section ScrubbedDuration.
Import PrimFloat.

(** The 210 years of the slider, one by one. *)
Lemma slider_years_checked :
  forallb (fun n =>
             let v := Double.slider_year n in
             let f := ((v - 1800) / (2009 - 1800))%float in
             let d := (209000 - 209000 * f)%float in
             ((0 <=? f) && (f <=? 1) && (0 <=? d) && (d <=? 209000)
              && (abs (d - 1000 * (2009 - v)) <=? 0x1p-36))%float)
          (seq 0 210) = true.
Proof. vm_compute. reflexivity. Qed.



End ScrubbedDuration.
